(** * celldetr: the Hungarian matcher of the deformable-DETR model

    A shallow embedding of [celldetr/models/deformable_detr/matcher.py]:
    the constructor of [HungarianMatcher], its [forward] method, the tensor
    operations [forward] calls, and the assignment solver it hands each
    per-example cost block to.

    Tensor elements are IEEE binary64 numbers ([PrimFloat.float]); shapes are
    carried explicitly, so that a tensor with an empty axis keeps its other
    sizes, as it does in torch. *)

From Stdlib Require Import ZArith Lia Floats.
From stdpp Require Import base option list sorting.

(* The decimal literals of the source that binary64 rounds, such as 1e-8. *)
Set Warnings "-inexact-float".

(** ** Exceptions and results *)

(** The exceptions the modelled code can raise.  [Unreachable] marks a state
    the solver's source never enters (an index read as [-1] and then used,
    or a loop that has used up its bound); [forward_sound] shows that no
    call raises it. *)
Inductive exn : Type :=
  | AssertionError
  | RuntimeError
  | IndexError
  | ValueError
  | Unreachable.

Inductive result (A : Type) : Type :=
  | Ok (a : A)
  | Raise (e : exn).
Arguments Ok {A} a.
Arguments Raise {A} e.

Definition bind {A B : Type} (r : result A) (k : A -> result B) : result B :=
  match r with
  | Ok a => k a
  | Raise e => Raise e
  end.

#[global] Instance result_bind : MBind result := fun A B k r => bind r k.
#[global] Instance result_ret : MRet result := @Ok.

(** A list comprehension whose body may raise: elements are computed from
    left to right and the first exception ends the comprehension. *)
Fixpoint comprehension {A B : Type} (f : A -> result B) (l : list A)
  : result (list B) :=
  match l with
  | [] => Ok []
  | a :: l' => b ← f a; bs ← comprehension f l'; Ok (b :: bs)
  end.

Definition is_ok {A : Type} (r : result A) : bool :=
  match r with Ok _ => true | Raise _ => false end.

(** The value of a computation that does not raise; [d] otherwise. *)
Definition value {A : Type} (d : A) (r : result A) : A :=
  match r with Ok a => a | Raise _ => d end.

(** A computation stays within the modelled code: it does not raise
    [Unreachable]. *)
Definition sound {A : Type} (r : result A) : Prop := r <> Raise Unreachable.

(** ** Floating-point predicates *)

Definition is_finite (x : float) : bool :=
  negb (PrimFloat.is_nan x) && negb (PrimFloat.is_infinity x).

#[global] Instance float_inhabited : Inhabited float := populate 0%float.

(** ** Tensors *)

(** A 2-D tensor: its shape and its entries.  Entries outside the shape are
    never read by the operations below. *)
Record tensor2 : Type := T2 {
  rows : nat;
  cols : nat;
  at2 : nat -> nat -> float
}.

(** A 3-D tensor. *)
Record tensor3 : Type := T3 {
  dim0 : nat;
  dim1 : nat;
  dim2 : nat;
  at3 : nat -> nat -> nat -> float
}.

Module Tensor.

(** [t.flatten(0, 1)]. *)
Definition flatten01 (t : tensor3) : tensor2 :=
  T2 (dim0 t * dim1 t) (dim2 t)
     (fun r c => at3 t (r / dim1 t) (r mod dim1 t) c).

(** An elementwise function of one tensor. *)
Definition map (f : float -> float) (t : tensor2) : tensor2 :=
  T2 (rows t) (cols t) (fun r c => f (at2 t r c)).

(** [w * t] for a Python scalar [w]. *)
Definition scale (w : float) (t : tensor2) : tensor2 :=
  map (fun x => (w * x)%float) t.

(** Broadcasting of one axis: two sizes are compatible when they are equal
    or one of them is 1. *)
Definition broadcast (n m : nat) : result nat :=
  if n =? m then Ok n
  else if n =? 1 then Ok m
  else if m =? 1 then Ok n
  else Raise RuntimeError.

(** The index read on an axis of size [n] when the result's index is
    [i]: an axis of size 1 is repeated. *)
Definition bidx (n i : nat) : nat := if n =? 1 then 0%nat else i.

(** The entry of [t] that the broadcast result reads at [(r, c)]. *)
Definition bget (t : tensor2) (r c : nat) : float :=
  at2 t (bidx (rows t) r) (bidx (cols t) c).

(** An elementwise binary operation with broadcasting ([a + b], [a - b]). *)
Definition zip (f : float -> float -> float) (a b : tensor2)
  : result tensor2 :=
  n ← broadcast (rows a) (rows b);
  m ← broadcast (cols a) (cols b);
  Ok (T2 n m (fun r c => f (bget a r c) (bget b r c))).

Definition add : tensor2 -> tensor2 -> result tensor2 := zip PrimFloat.add.
Definition sub : tensor2 -> tensor2 -> result tensor2 := zip PrimFloat.sub.

(** The entry at row [r] of the concatenation of [ts] along axis 0. *)
Fixpoint cat_at (ts : list tensor2) (r c : nat) : float :=
  match ts with
  | [] => 0%float
  | t :: ts' => if r <? rows t then at2 t r c
                else cat_at ts' (r - rows t) c
  end.

(** [torch.cat(ts)] of 2-D tensors: the list must not be empty and all
    tensors must agree on the size of axis 1. *)
Definition cat (ts : list tensor2) : result tensor2 :=
  match ts with
  | [] => Raise RuntimeError
  | t :: ts' =>
      if forallb (fun t' => cols t' =? cols t) ts'
      then Ok (T2 (sum_list (rows <$> ts)) (cols t) (cat_at ts))
      else Raise RuntimeError
  end.

(** [torch.cat(ls)] of 1-D integer tensors. *)
Definition cat1 (ls : list (list Z)) : result (list Z) :=
  match ls with
  | [] => Raise RuntimeError
  | _ => Ok (concat ls)
  end.

(** An index into an axis of size [n], as Python and torch read it:
    a negative index counts from the end. *)
Definition wrap_index (n : nat) (k : Z) : result nat :=
  if (0 <=? k)%Z && (k <? Z.of_nat n)%Z then Ok (Z.to_nat k)
  else if (- Z.of_nat n <=? k)%Z && (k <? 0)%Z
       then Ok (Z.to_nat (k + Z.of_nat n))
  else Raise IndexError.

(** [t[:, ids]] for an integer tensor [ids]. *)
Definition index_cols (t : tensor2) (ids : list Z) : result tensor2 :=
  ks ← comprehension (wrap_index (cols t)) ids;
  Ok (T2 (rows t) (length ks) (fun r c => at2 t r (ks !!! c))).

(** [t[:, :k]]. *)
Definition take_cols (k : nat) (t : tensor2) : tensor2 :=
  T2 (rows t) (Nat.min k (cols t)) (at2 t).

(** [t[:, k:]]. *)
Definition drop_cols (k : nat) (t : tensor2) : tensor2 :=
  T2 (rows t) (cols t - k) (fun r c => at2 t r (k + c)).

(** The L1 distance between row [i] of [x] and row [j] of [y], over [w]
    coordinates, accumulated from coordinate 0. *)
Fixpoint l1_from (x y : tensor2) (i j : nat) (k w : nat) (acc : float)
  : float :=
  match w with
  | O => acc
  | S w' => l1_from x y i j (S k) w'
              (acc + PrimFloat.abs (at2 x i k - at2 y j k))%float
  end.

Definition l1 (x y : tensor2) (i j : nat) : float :=
  l1_from x y i j 0 (cols x) 0%float.

(** [torch.cdist(x, y, p=1)]: the two tensors must have the same number of
    columns; the result has one row per row of [x] and one column per row
    of [y]. *)
Definition cdist1 (x y : tensor2) : result tensor2 :=
  if cols x =? cols y
  then Ok (T2 (rows x) (rows y) (l1 x y))
  else Raise RuntimeError.

(** [C.view(b, q, -1)] of a contiguous 2-D tensor: the number of elements
    must be a multiple of [b * q], and [b * q] must not be 0 (the size
    of the last axis could not be inferred). *)
Definition view3 (t : tensor2) (b q : nat) : result tensor3 :=
  let numel := (rows t * cols t)%nat in
  if (b * q =? 0)%nat then Raise RuntimeError
  else if (numel mod (b * q) =? 0)%nat then
    let w := (numel / (b * q))%nat in
    Ok (T3 b q w
          (fun i j k =>
             let flat := ((i * q + j) * w + k)%nat in
             at2 t (flat / cols t) (flat mod cols t)))
  else Raise RuntimeError.

(** The chunks of [t.split(sizes, -1)], from column [off] on. *)
Fixpoint chunks (t : tensor3) (off : nat) (sizes : list nat)
  : list tensor3 :=
  match sizes with
  | [] => []
  | s :: sizes' =>
      T3 (dim0 t) (dim1 t) s (fun i j k => at3 t i j (off + k))
      :: chunks t (off + s) sizes'
  end.

(** [t.split(sizes, -1)]: the sizes must add up to the last axis. *)
Definition split_last (t : tensor3) (sizes : list nat)
  : result (list tensor3) :=
  if sum_list sizes =? dim2 t then Ok (chunks t 0 sizes)
  else Raise RuntimeError.

(** [c[i]]: the [i]-th slice along axis 0. *)
Definition select0 (c : tensor3) (i : nat) : result tensor2 :=
  if i <? dim0 c then Ok (T2 (dim1 c) (dim2 c) (at3 c i))
  else Raise IndexError.

End Tensor.

(** ** The assignment solver *)

(** [scipy.optimize.linear_sum_assignment] as [forward] calls it (a
    minimisation): SciPy's rectangular solver, the shortest augmenting path
    algorithm.  Vectors of indices hold [None] where the source holds [-1]. *)
Module Lsap.

(** [v[k]] for a vector of indices; [None] stands for [-1]. *)
Definition get (l : list (option nat)) (k : nat) : option nat :=
  mjoin (l !! k).

Definition to_Z (o : option nat) : Z :=
  match o with
  | Some k => Z.of_nat k
  | None => (-1)%Z
  end.

(** The state of one scan of the remaining columns. *)
Record scan : Type := Scan {
  sc_path : list (option nat);
  sc_spc : list float;
  sc_lowest : float;
  sc_index : option nat
}.

(** The vectors a search for an augmenting path works on:
    [path], [shortestPathCosts], [SR], [SC] and [remaining]. *)
Record search : Type := Search {
  s_path : list (option nat);
  s_spc : list float;
  s_SR : list bool;
  s_SC : list bool;
  s_remaining : list nat
}.

(** What [augmenting_path] returns: a sink with [minVal] and the vectors, or
    [-1] when no column can be reached.  [Lost] stands for a chosen position
    that is [-1] although [lowest] is finite. *)
Inductive found : Type :=
  | Sink (sink : nat) (minVal : float) (s : search)
  | NoSink
  | Lost.

(** The solver's vectors between two rows: the dual variables [u] and [v],
    [path], and the assignment in both directions. *)
Record state : Type := State {
  st_u : list float;
  st_v : list float;
  st_path : list (option nat);
  st_col4row : list (option nat);
  st_row4col : list (option nat)
}.

Section Solver.

Variables nr nc : nat.
Variable cost : nat -> nat -> float.

Section Search.

Variables u v : list float.
Variable row4col : list (option nat).

(** The body of the loop over [remaining], at position [it] holding
    column [j], for the row [i] being scanned. *)
Definition scan_step (i : nat) (minVal : float) (s : scan)
    (it j : nat) : scan :=
  let r := (minVal + cost i j - u !!! i - v !!! j)%float in
  let s1 :=
    if (r <? sc_spc s !!! j)%float
    then Scan (<[j := Some i]> (sc_path s)) (<[j := r]> (sc_spc s))
              (sc_lowest s) (sc_index s)
    else s in
  let c := sc_spc s1 !!! j in
  if (c <? sc_lowest s1)%float
     || ((c =? sc_lowest s1)%float && bool_decide (get row4col j = None))
  then Scan (sc_path s1) (sc_spc s1) c (Some it)
  else s1.

Fixpoint scan_loop (i : nat) (minVal : float) (rem : list nat)
    (it : nat) (s : scan) : scan :=
  match rem with
  | [] => s
  | j :: rem' =>
      scan_loop i minVal rem' (S it) (scan_step i minVal s it j)
  end.

(** The loop [while (sink == -1)] of [augmenting_path], entered with
    [num_remaining] columns left in [remaining]: every turn takes one
    column out, and a turn with no column left finds [lowest] still
    infinite and gives up. *)
Fixpoint find_sink (num_remaining : nat) (i : nat) (minVal : float)
    (s : search) : found :=
  let SR := <[i := true]> (s_SR s) in
  let sc := scan_loop i minVal (take num_remaining (s_remaining s)) 0
              (Scan (s_path s) (s_spc s) infinity None) in
  let minVal := sc_lowest sc in
  if (minVal =? infinity)%float then NoSink
  else
    match sc_index sc, num_remaining with
    | Some index, S n =>
        let j := s_remaining s !!! index in
        let s' := Search (sc_path sc) (sc_spc sc) SR
                    (<[j := true]> (s_SC s))
                    (<[index := s_remaining s !!! n]> (s_remaining s)) in
        match get row4col j with
        | None => Sink j minVal s'
        | Some i' => find_sink n i' minVal s'
        end
    | _, _ => Lost
    end.

End Search.

(** [augmenting_path]: the vectors are reset, except [path]. *)
Definition augmenting_path (st : state) (curRow : nat) : found :=
  find_sink (st_u st) (st_v st) (st_row4col st) nc curRow 0%float
    (Search (st_path st) (replicate nc infinity) (replicate nr false)
            (replicate nc false) (reverse (seq 0 nc))).

(** The update of [u[i]] for a row [i] other than [curRow]. *)
Definition update_u_at (curRow : nat) (minVal : float) (s : search)
    (col4row : list (option nat)) (iu : nat * float) : result float :=
  if (s_SR s !!! iu.1) && negb (iu.1 =? curRow) then
    match get col4row iu.1 with
    | Some c => Ok (iu.2 + (minVal - s_spc s !!! c))%float
    | None => Raise Unreachable
    end
  else Ok iu.2.

Definition update_u (curRow : nat) (minVal : float) (s : search)
    (col4row : list (option nat)) (u : list float)
  : result (list float) :=
  comprehension (update_u_at curRow minVal s col4row)
    (imap pair (<[curRow := (u !!! curRow + minVal)%float]> u)).

Definition update_v (minVal : float) (s : search) (v : list float)
  : list float :=
  imap (fun (j : nat) (vj : float) => if (s_SC s !!! j : bool)
     then (vj - (minVal - s_spc s !!! j))%float
     else vj) v.

(** The loop that augments the previous solution along [path], from the
    sink back to [curRow].  It visits a row at most once, so [fuel]
    bounds it by the number of rows. *)
Fixpoint augment (fuel curRow : nat) (path : list (option nat)) (j : nat)
    (col4row row4col : list (option nat))
  : result (list (option nat) * list (option nat)) :=
  match fuel with
  | O => Raise Unreachable
  | S fuel' =>
      match get path j with
      | None => Raise Unreachable
      | Some i =>
          let row4col' := <[j := Some i]> row4col in
          let j' := get col4row i in
          let col4row' := <[i := Some j]> col4row in
          if i =? curRow then Ok (col4row', row4col')
          else
            match j' with
            | Some j'' => augment fuel' curRow path j'' col4row' row4col'
            | None => Raise Unreachable
            end
      end
  end.

(** One turn of the loop over the rows. *)
Definition step (st : state) (curRow : nat) : result state :=
  match augmenting_path st curRow with
  | Lost => Raise Unreachable
  | NoSink => Raise ValueError
  | Sink sink minVal s =>
      u' ← update_u curRow minVal s (st_col4row st) (st_u st);
      cr ← augment nr curRow (s_path s) sink
             (st_col4row st) (st_row4col st);
      Ok (State u' (update_v minVal s (st_v st)) (s_path s) cr.1 cr.2)
  end.

Fixpoint run (rs : list nat) (st : state) : result state :=
  match rs with
  | [] => Ok st
  | curRow :: rs' => st' ← step st curRow; run rs' st'
  end.

Definition initial : state :=
  State (replicate nr 0%float) (replicate nc 0%float)
        (replicate nc None) (replicate nr None) (replicate nc None).

(** An entry the solver refuses: NaN or minus infinity. *)
Definition invalid (x : float) : bool :=
  negb (x =? x)%float || (x =? neg_infinity)%float.

Definition has_invalid : bool :=
  existsb (fun i => existsb (fun j => invalid (cost i j)) (seq 0 nc))
          (seq 0 nr).

End Solver.

(** The indices of [v] ordered by their entries.  The source sorts with
    [std::sort]; the entries are pairwise distinct where it is called, so
    every sort gives this order. *)
Definition key_le (v : list (option nat)) (i j : nat) : Prop :=
  (to_Z (get v i) <= to_Z (get v j))%Z.

#[global] Instance key_le_dec (v : list (option nat))
  : RelDecision (key_le v).
Proof. intros i j; unfold key_le; apply _. Defined.

Definition argsort (v : list (option nat)) : list nat :=
  merge_sort (key_le v) (seq 0 (length v)).

(** [solve]: a matrix with more rows than columns is transposed first. *)
Definition solve (nr nc : nat) (cost : nat -> nat -> float)
  : result (list Z * list Z) :=
  if (nr =? 0) || (nc =? 0) then Ok ([], [])
  else
    let transpose := nc <? nr in
    let nr' := if transpose then nc else nr in
    let nc' := if transpose then nr else nc in
    let cost' := if transpose then (fun i j => cost j i) else cost in
    if has_invalid nr' nc' cost' then Raise ValueError
    else
      st ← run nr' nc' cost' (seq 0 nr') (initial nr' nc');
      if transpose then
        let idx := argsort (st_col4row st) in
        Ok (to_Z <$> (get (st_col4row st) <$> idx), Z.of_nat <$> idx)
      else
        Ok (Z.of_nat <$> seq 0 nr', to_Z <$> st_col4row st).

Definition linear_sum_assignment (c : tensor2) : result (list Z * list Z) :=
  solve (rows c) (cols c) (at2 c).

End Lsap.

(** ** Functions the matcher takes from elsewhere *)

(** The elementwise functions of torch that [forward] uses and that have no
    counterpart among the primitive operations on binary64 numbers:
    [Tensor.sigmoid], [Tensor.log] and [**] at a scalar exponent. *)
Class TorchMath : Type := {
  sigmoid : float -> float;
  log : float -> float;
  pow : float -> float -> float
}.

(** Modelled from the spec: the three functions of [util/moment_ops.py]
    ([denormalize_moments], [moments_to_cov], [kl_divergence_batched]) that
    [forward] imports; the module is not part of the sources.  The spec gives
    them as pure functions that never raise: [denormalize] works row by row,
    [moments_to_covariance] maps the trailing components to 2x2 matrices,
    and the batched divergence of [N_a] against [N_b] Gaussians is an
    [N_a x N_b] matrix that may hold NaN or Inf entries. *)
Class MomentOps : Type := {
  denormalize_moments : tensor2 -> tensor2;
  moments_to_cov : tensor2 -> tensor3;
  kl_divergence_batched : tensor2 -> tensor3 -> tensor2 -> tensor3 -> tensor2;
  denormalize_rows : forall m, rows (denormalize_moments m) = rows m;
  kl_rows : forall mu_a Sigma_a mu_b Sigma_b,
    rows (kl_divergence_batched mu_a Sigma_a mu_b Sigma_b) = rows mu_a;
  kl_cols : forall mu_a Sigma_a mu_b Sigma_b,
    cols (kl_divergence_batched mu_a Sigma_a mu_b Sigma_b) = rows mu_b
}.

(** ** The matcher *)

(** The [outputs] dict, as far as [forward] reads it. *)
Record outputs : Type := Outputs {
  pred_logits : tensor3;
  pred_moments : tensor3
}.

(** One entry of the [targets] list. *)
Record target : Type := Target {
  labels : list Z;
  moments : tensor2;
  boxes : tensor2
}.

Record HungarianMatcher : Type := Matcher {
  cost_class : float;
  cost_moments : float;
  cost_kl : float
}.

(** [HungarianMatcher.__init__]: the assertion is the last statement. *)
Definition init (cost_class cost_moments cost_kl : float)
  : result HungarianMatcher :=
  if negb (cost_class =? 0)%float || negb (cost_moments =? 0)%float
     || negb (cost_kl =? 0)%float
  then Ok (Matcher cost_class cost_moments cost_kl)
  else Raise AssertionError.

Definition alpha : float := 0.25%float.
Definition gamma : float := 2.0%float.

(** The value written over the NaN and Inf entries of the KL cost. *)
Definition penalty : float := 1000%float.

Definition sanitize (x : float) : float :=
  if PrimFloat.is_nan x || PrimFloat.is_infinity x then penalty else x.

(** [len(v)] of a tensor: the size of its first axis. *)
Definition len (t : tensor2) : nat := rows t.

Section Forward.

Context {TM : TorchMath} {MO : MomentOps}.

Definition neg_cost (p : float) : float :=
  ((1 - alpha) * pow p gamma * - log (1 - p + 1e-8))%float.

Definition pos_cost (p : float) : float :=
  (alpha * pow (1 - p) gamma * - log (p + 1e-8))%float.

(** Lines 78-80: the classification cost. *)
Definition classification_cost (out_prob : tensor2) (tgt_ids : list Z)
  : result tensor2 :=
  let neg_cost_class := Tensor.map neg_cost out_prob in
  let pos_cost_class := Tensor.map pos_cost out_prob in
  p ← Tensor.index_cols pos_cost_class tgt_ids;
  n ← Tensor.index_cols neg_cost_class tgt_ids;
  Tensor.sub p n.

(** Lines 85-94: the KL cost as [kl_divergence_batched] returns it. *)
Definition kl_raw (out_moments tgt_moments : tensor2) : tensor2 :=
  let denorm_out_moments := denormalize_moments out_moments in
  let denorm_tgt_moments := denormalize_moments tgt_moments in
  let mu_src := Tensor.take_cols 2 denorm_out_moments in
  let mu_tgt := Tensor.take_cols 2 denorm_tgt_moments in
  let Sigma_src := moments_to_cov (Tensor.drop_cols 2 denorm_out_moments) in
  let Sigma_tgt := moments_to_cov (Tensor.drop_cols 2 denorm_tgt_moments) in
  kl_divergence_batched mu_src Sigma_src mu_tgt Sigma_tgt.

(** Line 97: the KL cost with its NaN and Inf entries overwritten. *)
Definition kl_cost (out_moments tgt_moments : tensor2) : tensor2 :=
  Tensor.map sanitize (kl_raw out_moments tgt_moments).

Definition out_prob_of (out : outputs) : tensor2 :=
  Tensor.map sigmoid (Tensor.flatten01 (pred_logits out)).

Definition out_moments_of (out : outputs) : tensor2 :=
  Tensor.flatten01 (pred_moments out).

Variable self : HungarianMatcher.

(** Line 100: the weighted sum of the three costs. *)
Definition combine (cost_moments_m cost_class_m cost_kl_m : tensor2)
  : result tensor2 :=
  s ← Tensor.add (Tensor.scale (cost_moments self) cost_moments_m)
                 (Tensor.scale (cost_class self) cost_class_m);
  Tensor.add s (Tensor.scale (cost_kl self) cost_kl_m).

(** Lines 68-100: the cost matrix [C] before it is reshaped. *)
Definition cost_matrix (out : outputs) (targets : list target)
  : result tensor2 :=
  let out_prob := out_prob_of out in
  let out_moments := out_moments_of out in
  tgt_ids ← Tensor.cat1 (labels <$> targets);
  tgt_moments ← Tensor.cat (moments <$> targets);
  cost_class_m ← classification_cost out_prob tgt_ids;
  cost_moments_m ← Tensor.cdist1 out_moments tgt_moments;
  combine cost_moments_m cost_class_m (kl_cost out_moments tgt_moments).

Definition sizes_of (targets : list target) : list nat :=
  (fun v => len (boxes v)) <$> targets.

(** Lines 101-104: the chunks of [C.split(sizes, -1)], numbered. *)
Definition split_cost (out : outputs) (targets : list target)
  : result (list (nat * tensor3)) :=
  let bs := dim0 (pred_logits out) in
  let num_queries := dim1 (pred_logits out) in
  C ← cost_matrix out targets;
  C3 ← Tensor.view3 C bs num_queries;
  cs ← Tensor.split_last C3 (sizes_of targets);
  Ok (imap pair cs).

(** [linear_sum_assignment(c[i])]. *)
Definition assign (ic : nat * tensor3) : result (list Z * list Z) :=
  c ← Tensor.select0 ic.2 ic.1;
  Lsap.linear_sum_assignment c.

(** [HungarianMatcher.forward]. *)
Definition forward (out : outputs) (targets : list target)
  : result (list (list Z * list Z)) :=
  ics ← split_cost out targets;
  comprehension assign ics.

(** The cost blocks [c[i]] that [forward] hands to the solver when none of
    them is rejected. *)
Definition cost_blocks (out : outputs) (targets : list target)
  : result (list tensor2) :=
  ics ← split_cost out targets;
  comprehension (fun ic => Tensor.select0 ic.2 ic.1) ics.

End Forward.

(** ** Building the matcher from a configuration *)

Module Cfg.

(** [cfg.matcher], as far as [build_matcher] reads it. *)
Record matcher_node : Type := Node {
  cost_class : float;
  cost_moments : float;
  cost_kl : float
}.

(** [cfg]. *)
Record t : Type := Make {
  matcher : matcher_node
}.

End Cfg.

(** [build_matcher]. *)
Definition build_matcher (cfg : Cfg.t) : result HungarianMatcher :=
  init (Cfg.cost_class (Cfg.matcher cfg))
       (Cfg.cost_moments (Cfg.matcher cfg))
       (Cfg.cost_kl (Cfg.matcher cfg)).

(** ** Rows and labels *)

(** [t[k, q]] as a tensor of one row. *)
Definition query (t : tensor3) (k q : nat) : tensor2 :=
  T2 1 (dim2 t) (fun _ c => at3 t k q c).


(** The class a label in [[-n, n)] indexes, as a label that is not
    negative. *)
Definition nonneg_label (n : nat) (c : Z) : Z :=
  if (c <? 0)%Z then (c + Z.of_nat n)%Z else c.

Definition nonneg_labels (n : nat) (v : target) : target :=
  Target (nonneg_label n <$> labels v) (moments v) (boxes v).

(** ** Sample data *)

(** A tensor written out by rows. *)
Definition mat (l : list (list float)) : tensor2 :=
  T2 (length l) (length (l !!! 0%nat)) (fun i j => (l !!! i) !!! j).

(** A 3-D tensor written out as a list of matrices. *)
Definition cube (l : list (list (list float))) : tensor3 :=
  T3 (length l) (length (l !!! 0%nat)) (length ((l !!! 0%nat) !!! 0%nat))
     (fun i j k => ((l !!! i) !!! j) !!! k).

(** An empty matrix with [w] columns. *)
Definition empty (w : nat) : tensor2 := T2 0 w (fun _ _ => 0%float).

Module Sample.

(** Stand-ins for the functions of torch, good enough to run the model:
    a rational sigmoid, the first-order logarithm and the square. *)
#[export] Instance math : TorchMath := {|
  sigmoid := fun x => (0.5 + x / (2 * (1 + PrimFloat.abs x)))%float;
  log := fun x => (x - 1)%float;
  pow := fun x _ => (x * x)%float
|}.

(** Stand-ins for the moment utilities: the squared distance of the means
    takes the place of the divergence. *)
#[export] Instance moment_ops : MomentOps := {|
  denormalize_moments := fun m => m;
  moments_to_cov := fun m => T3 (rows m) 2 2 (fun _ _ _ => 0%float);
  kl_divergence_batched := fun mu_a _ mu_b _ =>
    T2 (rows mu_a) (rows mu_b)
       (fun i j => let dx := (at2 mu_a i 0 - at2 mu_b j 0)%float in
                   let dy := (at2 mu_a i 1 - at2 mu_b j 1)%float in
                   (dx * dx + dy * dy)%float);
  denormalize_rows := fun _ => eq_refl;
  kl_rows := fun _ _ _ _ => eq_refl;
  kl_cols := fun _ _ _ _ => eq_refl
|}.

(** One image, three queries, two classes, two objects. *)
Definition out1 : outputs :=
  Outputs (cube [[[2; -1]; [0; 3]; [-2; -2]]]%float)
          (cube [[[0.5; 0.5; 0.1; 0.1; 0]; [0.2; 0.2; 0.1; 0.1; 0];
                  [0.9; 0.9; 0.1; 0.1; 0]]]%float).

Definition targets1 : list target :=
  [Target [0; 1]%Z
          (mat [[0.2; 0.2; 0.1; 0.1; 0]; [0.5; 0.5; 0.1; 0.1; 0]]%float)
          (mat [[0.1; 0.1; 0.3; 0.3]; [0.4; 0.4; 0.6; 0.6]]%float)].

(** One image, two queries, one class; the first query sits on the second
    object and the second query on the first. *)
Definition out_crossed : outputs :=
  Outputs (cube [[[0]; [0]]]%float)
          (cube [[[0.9; 0.9; 0.1; 0.1; 0]; [0.1; 0.1; 0.1; 0.1; 0]]]%float).

Definition targets_crossed : list target :=
  [Target [0; 0]%Z
          (mat [[0.1; 0.1; 0.1; 0.1; 0]; [0.9; 0.9; 0.1; 0.1; 0]]%float)
          (mat [[0; 0; 0.2; 0.2]; [0.8; 0.8; 1; 1]]%float)].

(** One image, one query, one object; the two moment vectors are finite and
    far apart. *)
Definition out_far : outputs :=
  Outputs (cube [[[0]]]%float) (cube [[[1e308; 0; 0; 0; 0]]]%float).

Definition targets_far : list target :=
  [Target [0]%Z (mat [[-1e308; 0; 0; 0; 0]]%float)
          (mat [[0; 0; 1; 1]]%float)].

(** Two images, one query each, and a target list of one image without
    objects. *)
Definition out_pair : outputs :=
  Outputs (cube [[[0]]; [[0]]]%float)
          (cube [[[0.5; 0.5; 0.1; 0.1; 0]]; [[0.2; 0.2; 0.1; 0.1; 0]]]%float).

Definition targets_none : list target :=
  [Target [] (empty 5) (empty 4)].

(** Two images, two queries each.  The first target has one object and two
    boxes, the second two objects and one box. *)
Definition out2 : outputs :=
  Outputs (cube [[[1; 0]; [0; 1]]; [[2; -1]; [-1; 2]]]%float)
          (cube [[[0.5; 0.5; 0.1; 0.1; 0]; [0.2; 0.2; 0.1; 0.1; 0]];
                 [[0.3; 0.3; 0.1; 0.1; 0]; [0.7; 0.7; 0.1; 0.1; 0]]]%float).

Definition targets_shifted : list target :=
  [Target [0]%Z (mat [[0.5; 0.5; 0.1; 0.1; 0]]%float)
          (mat [[0; 0; 1; 1]; [0; 0; 1; 1]]%float);
   Target [1; 0]%Z
          (mat [[0.3; 0.3; 0.1; 0.1; 0]; [0.7; 0.7; 0.1; 0.1; 0]]%float)
          (mat [[0; 0; 1; 1]]%float)].

(** One image without queries. *)
Definition out_no_queries : outputs :=
  Outputs (T3 1 0 2 (fun _ _ _ => 0%float)) (T3 1 0 5 (fun _ _ _ => 0%float)).

(** The first sample's target with the boxes moved. *)
Definition targets1_moved : list target :=
  [Target [0; 1]%Z
          (mat [[0.2; 0.2; 0.1; 0.1; 0]; [0.5; 0.5; 0.1; 0.1; 0]]%float)
          (mat [[0.7; 0.7; 0.9; 0.9]; [0; 0; 0.1; 0.1]]%float)].

(** The first sample's target with the second label counted from the end,
    and with a label past the two classes. *)
Definition targets1_negative : list target :=
  [Target [0; -1]%Z
          (mat [[0.2; 0.2; 0.1; 0.1; 0]; [0.5; 0.5; 0.1; 0.1; 0]]%float)
          (mat [[0.1; 0.1; 0.3; 0.3]; [0.4; 0.4; 0.6; 0.6]]%float)].

Definition targets1_past : list target :=
  [Target [0; 2]%Z
          (mat [[0.2; 0.2; 0.1; 0.1; 0]; [0.5; 0.5; 0.1; 0.1; 0]]%float)
          (mat [[0.1; 0.1; 0.3; 0.3]; [0.4; 0.4; 0.6; 0.6]]%float)].

(** The first sample with a NaN among the moments of its last query. *)
Definition out1_nan : outputs :=
  Outputs (cube [[[2; -1]; [0; 3]; [-2; -2]]]%float)
          (cube [[[0.5; 0.5; 0.1; 0.1; 0]; [0.2; 0.2; 0.1; 0.1; 0];
                  [0.9; PrimFloat.nan; 0.1; 0.1; 0]]]%float).

(** Targets for the two images of [out2], with as many boxes as objects. *)
Definition targets2 : list target :=
  [Target [0]%Z (mat [[0.5; 0.5; 0.1; 0.1; 0]]%float)
          (mat [[0; 0; 1; 1]]%float);
   Target [1; 0]%Z
          (mat [[0.3; 0.3; 0.1; 0.1; 0]; [0.7; 0.7; 0.1; 0.1; 0]]%float)
          (mat [[0; 0; 1; 1]; [0; 0; 1; 1]]%float)].

End Sample.

(** ** Well-shaped inputs *)

(** The number of rows of the concatenated target moments. *)
Definition num_targets (targets : list target) : nat :=
  sum_list (rows <$> (moments <$> targets)).

(** An input whose shapes fit together, the ["boxes"] entries and the length
    of the target list left aside: the two prediction tensors have the same
    batch and query sizes, neither of them zero; there is a target; every
    target's moments have the width of the predicted moments and as many rows
    as the target has labels; every label indexes a class. *)
Record well_shaped (out : outputs) (targets : list target) : Prop := {
  ws_batch : dim0 (pred_moments out) = dim0 (pred_logits out);
  ws_queries : dim1 (pred_moments out) = dim1 (pred_logits out);
  ws_predictions : dim0 (pred_logits out) * dim1 (pred_logits out) <> 0;
  ws_targets : targets <> [];
  ws_width :
    Forall (fun t => cols (moments t) = dim2 (pred_moments out)) targets;
  ws_labels :
    Forall (fun t => length (labels t) = rows (moments t)) targets;
  ws_classes :
    Forall (fun t =>
      Forall (fun c => (- Z.of_nat (dim2 (pred_logits out)) <= c
                        < Z.of_nat (dim2 (pred_logits out)))%Z)
             (labels t)) targets
}.





(** The reasons for which a call with ill-fitting shapes aborts. *)
Inductive rejected (out : outputs) (targets : list target) : Prop :=
  | no_target : targets = [] -> rejected out targets
  | more_targets :
      dim0 (pred_logits out) < length targets -> rejected out targets
  | moment_width :
      Exists (fun t => cols (moments t) <> dim2 (pred_moments out)) targets ->
      rejected out targets
  | target_count :
      well_shaped out targets ->
      sum_list ((fun v => len (boxes v)) <$> targets) <> num_targets targets ->
      rejected out targets.

(** A number of the specification of binary64 is finite. *)
Definition sf_finite (s : spec_float) : bool :=
  match s with
  | S754_zero _ | S754_finite _ _ _ => true
  | S754_infinity _ | S754_nan => false
  end.

(** ** What the solver maintains, and what it returns *)

(** After [k] rows: the two assignment vectors are inverse to each other, and
    the assigned rows are the first [k]. *)
Record matching (nr nc k : nat) (c4r r4c : list (option nat)) : Prop := {
  m_rows : length c4r = nr;
  m_cols : length r4c = nc;
  m_inverse : forall i j, Lsap.get c4r i = Some j <-> Lsap.get r4c j = Some i;
  m_assigned : forall i, i < nr -> is_Some (Lsap.get c4r i) <-> i < k
}.

(** Inside the augmenting loop for row [k]: column [d] has lost its row or
    never had one, and is waiting for the row [path[d]]. *)
Record dangling (nr nc k d : nat) (c4r r4c : list (option nat)) : Prop := {
  d_rows : length c4r = nr;
  d_cols : length r4c = nc;
  d_col : d < nc;
  d_inverse : forall i j, j <> d ->
    Lsap.get c4r i = Some j <-> Lsap.get r4c j = Some i;
  d_free : forall i, Lsap.get c4r i <> Some d;
  d_assigned : forall i, i < nr -> is_Some (Lsap.get c4r i) <-> i < k
}.

(** The rows a search for row [k] has reached, the last one first.  Every
    row but [k] was reached through the column [j] it is assigned to, and
    that column from a row reached earlier, [path[j]]. *)
Inductive reached (path c4r : list (option nat)) (k : nat)
  : list nat -> Prop :=
  | reached_root : reached path c4r k [k]
  | reached_row (i j i' : nat) (vis : list nat) :
      reached path c4r k vis -> i ∉ vis ->
      Lsap.get c4r i = Some j -> Lsap.get path j = Some i' -> i' ∈ vis ->
      reached path c4r k (i :: vis).

(** What a scan of the remaining columns [rem] for the row [i] keeps:
    [path] changes only at scanned columns, to [i]; a column whose shortest
    path cost is no longer the initial infinity has its [path] entry among
    the reached rows [vis]; and so has the column at the chosen position,
    unless [lowest] is still infinite. *)
Record scanned (nc : nat) (vis : list nat) (i : nat) (rem : list nat)
    (path0 : list (option nat)) (sc : Lsap.scan) : Prop := {
  sn_path : forall j,
    Lsap.get (Lsap.sc_path sc) j = Lsap.get path0 j
    \/ (j ∈ rem /\ Lsap.get (Lsap.sc_path sc) j = Some i);
  sn_set : forall j, j < nc ->
    (Lsap.sc_spc sc !!! j =? infinity)%float = true
    \/ exists i', i' ∈ vis /\ Lsap.get (Lsap.sc_path sc) j = Some i';
  sn_path_length : length (Lsap.sc_path sc) = nc;
  sn_spc_length : length (Lsap.sc_spc sc) = nc;
  sn_none : Lsap.sc_index sc = None -> Lsap.sc_lowest sc = infinity;
  sn_some : forall it, Lsap.sc_index sc = Some it ->
    exists j, rem !! it = Some j
      /\ ((Lsap.sc_lowest sc =? infinity)%float = true
          \/ exists i', i' ∈ vis /\ Lsap.get (Lsap.sc_path sc) j = Some i')
}.

(** What the search for row [k] keeps between two scans, with [n] columns
    remaining and the rows [vis] reached. *)
Record searching (nr nc k : nat) (c4r : list (option nat)) (vis : list nat)
    (n : nat) (s : Lsap.search) : Prop := {
  sg_reached : reached (Lsap.s_path s) c4r k vis;
  sg_rows : Forall (fun i => i < nr) vis;
  sg_frozen : forall i j, i ∈ vis -> Lsap.get c4r i = Some j ->
    j ∉ take n (Lsap.s_remaining s);
  sg_set : forall j, j < nc ->
    (Lsap.s_spc s !!! j =? infinity)%float = true
    \/ exists i', i' ∈ vis /\ Lsap.get (Lsap.s_path s) j = Some i';
  sg_NoDup : NoDup (take n (Lsap.s_remaining s));
  sg_cols : Forall (fun j => j < nc) (Lsap.s_remaining s);
  sg_remaining : n <= length (Lsap.s_remaining s);
  sg_path_length : length (Lsap.s_path s) = nc;
  sg_spc_length : length (Lsap.s_spc s) = nc;
  sg_SR_length : length (Lsap.s_SR s) = nr;
  sg_SR : forall i, Lsap.s_SR s !! i = Some true -> i ∈ vis
}.

(** A search ends without a sink, or with a sink that waits for a reached
    row; it is never lost. *)
Definition found_ok (nr nc k : nat) (c4r : list (option nat))
    (f : Lsap.found) : Prop :=
  match f with
  | Lsap.Sink j _ s =>
      exists vis i,
        reached (Lsap.s_path s) c4r k vis
        /\ Forall (fun i => i < nr) vis
        /\ Lsap.get (Lsap.s_path s) j = Some i /\ i ∈ vis
        /\ length (Lsap.s_path s) = nc
        /\ length (Lsap.s_SR s) = nr
        /\ forall i, Lsap.s_SR s !! i = Some true -> i ∈ vis
  | Lsap.NoSink => True
  | Lsap.Lost => False
  end.

(** The solver's state after [k] rows. *)
Record coherent (nr nc k : nat) (st : Lsap.state) : Prop := {
  co_matching : matching nr nc k (Lsap.st_col4row st) (Lsap.st_row4col st);
  co_path : length (Lsap.st_path st) = nc;
  co_u : length (Lsap.st_u st) = nr
}.

(** A sequence of indices is strictly increasing. *)
Definition strictly_increasing (l : list Z) : Prop :=
  forall i j x y, i < j -> l !! i = Some x -> l !! j = Some y -> (x < y)%Z.

(** A pair of index sequences is a one-to-one assignment between rows below
    [nr] and columns below [nc] that leaves no row or no column out, the rows
    in increasing order. *)
Record assignment (nr nc : nat) (a b : list Z) : Prop := {
  as_rows_length : length a = Nat.min nr nc;
  as_cols_length : length b = Nat.min nr nc;
  as_rows_range : Forall (fun x => (0 <= x < Z.of_nat nr)%Z) a;
  as_cols_range : Forall (fun y => (0 <= y < Z.of_nat nc)%Z) b;
  as_rows_NoDup : NoDup a;
  as_cols_NoDup : NoDup b;
  as_rows_increasing : strictly_increasing a
}.

(** * Properties *)

(** ** Results *)

Lemma bind_Ok {A B : Type} (r : result A) (k : A -> result B) (b : B) :
  (a ← r; k a) = Ok b -> exists a, r = Ok a /\ k a = Ok b.
Proof.
  destruct r as [a|e]; cbn; intros Hk; [eauto | discriminate].
Qed.

Tactic Notation "inv_bind" hyp(H) "as" ident(x) ident(Hx) :=
  apply bind_Ok in H; destruct H as (x & Hx & H).

Lemma comprehension_Ok {A B : Type} (f : A -> result B) (l : list A)
    (bs : list B) :
  comprehension f l = Ok bs -> Forall2 (fun a b => f a = Ok b) l bs.
Proof.
  revert bs; induction l as [|a l IH]; intros bs H; cbn in H.
  - injection H as <-. constructor.
  - inv_bind H as b Hb. inv_bind H as bs' Hbs. injection H as <-.
    constructor; auto.
Qed.

Lemma comprehension_Forall {A B : Type} (f : A -> result B) (l : list A) :
  Forall (fun a => is_ok (f a) = true) l ->
  exists bs, comprehension f l = Ok bs.
Proof.
  induction 1 as [|a l Ha _ [bs IH]]; cbn.
  - eauto.
  - destruct (f a) as [b|]; [|discriminate]. cbn. rewrite IH. cbn. eauto.
Qed.

Lemma comprehension_total {A B : Type} (f : A -> result B) (l : list A)
    (e : exn) :
  Forall (fun a => (exists b, f a = Ok b) \/ f a = Raise e) l ->
  (exists bs, comprehension f l = Ok bs) \/ comprehension f l = Raise e.
Proof.
  induction 1 as [|a l Ha _ IH]; cbn; [eauto|].
  destruct Ha as [[b ->]| ->]; [|by right]. cbn.
  destruct IH as [[bs ->]| ->]; cbn; eauto.
Qed.

Lemma bind_sound {A B : Type} (r : result A) (k : A -> result B) :
  sound r -> (forall a, r = Ok a -> sound (k a)) -> sound (a ← r; k a).
Proof.
  unfold sound. intros Hr Hk. destruct r as [a|e]; cbn; [by apply Hk|].
  congruence.
Qed.

Lemma comprehension_sound {A B : Type} (f : A -> result B) (l : list A) :
  (forall a, sound (f a)) -> sound (comprehension f l).
Proof.
  intros Hf. induction l as [|a l IH]; cbn; [done|].
  apply bind_sound; [done|]. intros b _. apply bind_sound; [done|]. done.
Qed.

(** ** The solver *)

Module LsapFacts.
Import Lsap.

Lemma get_Some (l : list (option nat)) (i j : nat) :
  get l i = Some j <-> l !! i = Some (Some j).
Proof.
  unfold get. destruct (l !! i) as [[k|]|]; cbn; split; congruence.
Qed.

Lemma get_lt (l : list (option nat)) (i j : nat) :
  get l i = Some j -> i < length l.
Proof. rewrite get_Some. apply lookup_lt_Some. Qed.

Lemma get_insert (l : list (option nat)) (i i' : nat) (x : option nat) :
  i < length l ->
  get (<[i := x]> l) i' = if decide (i = i') then x else get l i'.
Proof.
  intros Hi. unfold get. destruct (decide (i = i')) as [->|Hne].
  - rewrite list_lookup_insert_eq by done. done.
  - rewrite list_lookup_insert_ne by done. done.
Qed.

Lemma get_replicate_None (n i : nat) : get (replicate n None) i = None.
Proof.
  unfold get. destruct (replicate n None !! i) as [o|] eqn:E; [|done].
  apply lookup_replicate in E as [-> _]. done.
Qed.

Section Invariants.

Variables nr nc : nat.
Variable cost : nat -> nat -> float.

Lemma matching_dangling (k d : nat) (c4r r4c : list (option nat)) :
  matching nr nc k c4r r4c -> d < nc -> get r4c d = None ->
  dangling nr nc k d c4r r4c.
Proof.
  intros [Hr Hc Hinv Hdom] Hd Hfree. split; auto.
  intros i Hi. apply Hinv in Hi. congruence.
Qed.

Lemma augment_matching (fuel k : nat) (path : list (option nat)) :
  k < nr ->
  forall (d : nat) (c4r r4c c4r' r4c' : list (option nat)),
  dangling nr nc k d c4r r4c ->
  augment fuel k path d c4r r4c = Ok (c4r', r4c') ->
  matching nr nc (S k) c4r' r4c'.
Proof.
  intros Hk. induction fuel as [|fuel IH];
    intros d c4r r4c c4r' r4c' [Hr Hc Hd Hinv Hfree Hdom] H;
    cbn in H; [discriminate|].
  destruct (get path d) as [i|]; [|discriminate].
  destruct (Nat.eqb_spec i k) as [Heq|Hik].
  - subst i. injection H as <- <-. split.
    + by rewrite length_insert.
    + by rewrite length_insert.
    + intros i j. rewrite !get_insert by lia.
      destruct (decide (k = i)) as [<-|Hi], (decide (d = j)) as [<-|Hj].
      * split; congruence.
      * split; [congruence|]. intros Hj'. apply Hinv in Hj'; [|done].
        assert (is_Some (get c4r k)) as Hs by eauto.
        apply Hdom in Hs; lia.
      * split; [|congruence]. intros Hj'. by apply Hfree in Hj'.
      * apply Hinv. congruence.
    + intros i Hi. rewrite get_insert by lia.
      destruct (decide (k = i)) as [<-|Hne].
      * split; [lia | eauto].
      * rewrite Hdom by done. lia.
  - destruct (get c4r i) as [d'|] eqn:Hd'; [|discriminate].
    assert (i < nr) as Hi by (rewrite <- Hr; eapply get_lt; eauto).
    assert (d' <> d) as Hne by (intros ->; by apply Hfree in Hd').
    assert (get r4c d' = Some i) as Hr4c by (by apply Hinv).
    apply (IH d') in H; [done|]. split.
    + by rewrite length_insert.
    + by rewrite length_insert.
    + rewrite <- Hc. eapply get_lt; eauto.
    + intros i0 j Hj. rewrite !get_insert by lia.
      destruct (decide (i = i0)) as [<-|Hi0], (decide (d = j)) as [<-|Hdj].
      * split; congruence.
      * split; [congruence|]. intros Hj'. apply Hinv in Hj'; congruence.
      * split; [|congruence]. intros Hj'. by apply Hfree in Hj'.
      * apply Hinv. congruence.
    + intros i0. rewrite get_insert by lia.
      destruct (decide (i = i0)) as [<-|Hi0]; [congruence|].
      intros Hi0'. apply Hinv in Hi0'; [|done]. congruence.
    + intros i0 Hi0. rewrite get_insert by lia.
      destruct (decide (i = i0)) as [<-|Hne0]; [|by apply Hdom].
      split; [|eauto]. intros _. apply Hdom; eauto.
Qed.

Lemma lookup_total_below (l : list nat) (i : nat) :
  0 < nc -> Forall (fun x => x < nc) l -> l !!! i < nc.
Proof.
  intros Hnc Hl. destruct (l !! i) as [x|] eqn:E.
  - rewrite (list_lookup_total_correct _ _ _ E).
    by eapply Forall_lookup_1 in Hl.
  - rewrite list_lookup_total_alt, E. done.
Qed.

(** A sink is a column below [nc] that has no row yet. *)
Lemma find_sink_Sink (u v : list float) (r4c : list (option nat)) :
  0 < nc ->
  forall (n i : nat) (m : float) (s : search) (j : nat) (m' : float)
         (s' : search),
  Forall (fun x => x < nc) (s_remaining s) ->
  find_sink cost u v r4c n i m s = Sink j m' s' ->
  j < nc /\ get r4c j = None.
Proof.
  intros Hnc. induction n as [|n IH]; intros i m s j m' s' Hrem H;
    cbn [find_sink] in H;
    destruct (PrimFloat.eqb _ _); try discriminate;
    destruct (sc_index _) as [index|]; try discriminate.
  destruct (get r4c (s_remaining s !!! index)) as [i'|] eqn:E.
  - apply IH in H; [done|]. cbn.
    apply Forall_insert; [done|]. by apply lookup_total_below.
  - injection H as <- _ _. split; [|done]. by apply lookup_total_below.
Qed.

Lemma initial_matching : matching nr nc 0 (replicate nr None) (replicate nc None).
Proof.
  split.
  - apply length_replicate.
  - apply length_replicate.
  - intros i j. rewrite !get_replicate_None. split; discriminate.
  - intros i _. rewrite get_replicate_None. split; [|lia].
    intros [? ?]; discriminate.
Qed.

Lemma step_matching (k : nat) (st st' : state) :
  0 < nc -> k < nr ->
  matching nr nc k (st_col4row st) (st_row4col st) ->
  step nr nc cost st k = Ok st' ->
  matching nr nc (S k) (st_col4row st') (st_row4col st').
Proof.
  intros Hnc Hk Hm H. unfold step in H.
  destruct (augmenting_path nr nc cost st k) as [sink m s| |] eqn:E;
    try discriminate.
  unfold augmenting_path in E. apply find_sink_Sink in E as [Hs Hfree];
    [|done|].
  - inv_bind H as u' Hu. inv_bind H as cr Hcr. injection H as <-. cbn.
    destruct cr as [c4r' r4c']. eapply augment_matching; [done| |done].
    by apply matching_dangling.
  - cbn. apply Forall_reverse, Forall_seq. lia.
Qed.

Lemma run_matching (n : nat) :
  0 < nc ->
  forall (k : nat) (st st' : state),
  k + n <= nr ->
  matching nr nc k (st_col4row st) (st_row4col st) ->
  run nr nc cost (seq k n) st = Ok st' ->
  matching nr nc (k + n) (st_col4row st') (st_row4col st').
Proof.
  intros Hnc. induction n as [|n IH]; intros k st st' Hkn Hm H; cbn in H.
  - injection H as <-. by rewrite Nat.add_0_r.
  - inv_bind H as st1 Hst1. apply step_matching in Hst1; [|done|lia|done].
    apply IH in H; [|lia|done]. by rewrite Nat.add_succ_r.
Qed.

(** The solver's loop, when it ends, has given every row a column of its
    own. *)
Lemma run_complete (st : state) :
  0 < nc ->
  run nr nc cost (seq 0 nr) (initial nr nc) = Ok st ->
  matching nr nc nr (st_col4row st) (st_row4col st).
Proof.
  intros Hnc H. apply (run_matching nr Hnc 0) in H; [done|lia|].
  apply initial_matching.
Qed.

End Invariants.

(** *** The solver never leaves its bounds *)

Lemma get_insert_ne (l : list (option nat)) (i i' : nat) (x : option nat) :
  i <> i' -> get (<[i := x]> l) i' = get l i'.
Proof. intros Hne. unfold get. by rewrite list_lookup_insert_ne. Qed.

Section Reached.

Variables (path c4r0 : list (option nat)) (k : nat).

Lemma reached_root_in (vis : list nat) : reached path c4r0 k vis -> k ∈ vis.
Proof.
  induction 1; [apply list_elem_of_here | by apply list_elem_of_further].
Qed.

Lemma reached_NoDup (vis : list nat) : reached path c4r0 k vis -> NoDup vis.
Proof.
  induction 1; [apply NoDup_singleton | by apply NoDup_cons].
Qed.

Lemma reached_assigned (vis : list nat) (i : nat) :
  reached path c4r0 k vis -> i ∈ vis -> i = k \/ is_Some (get c4r0 i).
Proof.
  induction 1 as [|i0 j i' vis Hvis IH Hnin Hc Hp Hin]; intros Hi.
  - left. by apply list_elem_of_singleton in Hi.
  - apply elem_of_cons in Hi as [->|Hi]; [right; eauto | auto].
Qed.

(** From a column that waits for a reached row, the augmenting loop gets
    back to row [k] in no more turns than there are reached rows. *)
Lemma augment_reached (vis : list nat) :
  reached path c4r0 k vis ->
  forall (fuel d i : nat) (c4r r4c : list (option nat)),
  length vis <= fuel ->
  get path d = Some i -> i ∈ vis ->
  (forall i', i' ∈ vis -> get c4r i' = get c4r0 i') ->
  exists cr, augment fuel k path d c4r r4c = Ok cr.
Proof.
  induction 1 as [|i0 j0 i0' vis Hvis IH Hnin Hc Hp Hin];
    intros fuel d i c4r r4c Hfuel Hd Hi Hagree.
  - apply list_elem_of_singleton in Hi as ->.
    destruct fuel as [|fuel]; [cbn in Hfuel; lia|]. cbn.
    rewrite Hd, Nat.eqb_refl. eauto.
  - cbn in Hfuel. apply elem_of_cons in Hi as [->|Hi].
    + destruct fuel as [|fuel]; [lia|]. cbn. rewrite Hd.
      assert (i0 <> k) as Hne.
      { intros ->. by apply Hnin, reached_root_in. }
      destruct (Nat.eqb_spec i0 k) as [|_]; [done|].
      rewrite (Hagree i0) by apply list_elem_of_here. rewrite Hc.
      apply (IH fuel j0 i0'); [lia|done|done|].
      intros i' Hi'. rewrite get_insert_ne by (intros ->; done).
      apply Hagree. by apply list_elem_of_further.
    + apply (IH fuel d i); [lia|done|done|].
      intros i' Hi'. apply Hagree. by apply list_elem_of_further.
Qed.

(** The reached rows stay reached when [path] changes at other columns than
    theirs. *)
Lemma reached_ext (path' : list (option nat)) (vis : list nat) :
  reached path c4r0 k vis ->
  (forall i j, i ∈ vis -> get c4r0 i = Some j -> get path' j = get path j) ->
  reached path' c4r0 k vis.
Proof.
  induction 1 as [|i0 j0 i0' vis Hvis IH Hnin Hc Hp Hin]; intros Hext.
  - constructor.
  - econstructor; eauto.
    + apply IH. intros i j Hi. apply Hext. by apply list_elem_of_further.
    + rewrite (Hext i0 j0); [done|apply list_elem_of_here|done].
Qed.

End Reached.

Lemma length_below (n : nat) (l : list nat) :
  NoDup l -> Forall (fun x => x < n) l -> length l <= n.
Proof.
  intros Hnd Hl.
  transitivity (length (seq 0 n)); [|by rewrite length_seq].
  apply submseteq_length, NoDup_submseteq; [done|].
  intros x Hx. apply elem_of_seq. rewrite Forall_forall in Hl.
  specialize (Hl x Hx). lia.
Qed.

(** Taking the chosen column out of [remaining]: the last remaining column
    takes its place. *)
Lemma swap_remove (l : list nat) (n index j : nat) :
  NoDup (take (S n) l) -> S n <= length l ->
  take (S n) l !! index = Some j ->
  NoDup (take n (<[index := l !!! n]> l))
  /\ forall x, x ∈ take n (<[index := l !!! n]> l) ->
     x ∈ take (S n) l /\ x <> j.
Proof.
  intros Hnd Hlen Hj. apply lookup_take_Some in Hj as [Hj Hi].
  assert (forall p q y, p < S n -> q < S n ->
            l !! p = Some y -> l !! q = Some y -> p = q) as Hinj.
  { intros p q y Hp Hq Ep Eq. apply (proj1 (NoDup_alt _) Hnd p q y).
    - by rewrite lookup_take_lt.
    - by rewrite lookup_take_lt. }
  destruct (lookup_lt_is_Some_2 l n) as [xn Hxn]; [lia|].
  rewrite (list_lookup_total_correct _ _ _ Hxn).
  assert (index < length l) as Hil by lia.
  assert (forall p y, take n (<[index := xn]> l) !! p = Some y ->
            p < n /\ ((p = index /\ y = xn) \/ (p <> index /\ l !! p = Some y)))
    as Hlook.
  { intros p y Hp. apply lookup_take_Some in Hp as [Hp Hpn]. split; [done|].
    apply list_lookup_insert_Some in Hp as [(-> & <- & _)|[Hne Hp]]; auto. }
  split.
  - apply NoDup_alt. intros p q y Hp Hq.
    apply Hlook in Hp as (Hpn & [[-> ->]|[Hpi Hp]]);
      apply Hlook in Hq as (Hqn & [[-> Hy]|[Hqi Hq]]); try done.
    + assert (q = n) by (apply (Hinj q n xn); auto with lia). lia.
    + assert (p = n) by (apply (Hinj p n y); auto with lia; congruence). lia.
    + apply (Hinj p q y); auto with lia.
  - intros x Hx. apply list_elem_of_lookup in Hx as [p Hp].
    apply Hlook in Hp as (Hpn & [[-> ->]|[Hpi Hp]]).
    + split.
      * apply elem_of_take. exists n. split; [done|lia].
      * intros ->. assert (n = index) by (apply (Hinj n index j); auto with lia).
        lia.
    + split.
      * apply elem_of_take. exists p. split; [done|lia].
      * intros ->. apply Hpi. apply (Hinj p index j); auto with lia.
Qed.

Lemma infinity_eqb : (infinity =? infinity)%float = true.
Proof. reflexivity. Qed.

(** *** The scan of the remaining columns *)

Section ScanFacts.

Variables nc : nat.
Variable cost : nat -> nat -> float.
Variables u v : list float.
Variable r4c : list (option nat).
Variables (vis : list nat) (i : nat) (minVal : float).
Variable rem : list nat.
Variable path0 : list (option nat).
Hypothesis Hi : i ∈ vis.
Hypothesis Hrem : Forall (fun j => j < nc) rem.

Lemma scan_step_scanned (sc : scan) (it j : nat) :
  rem !! it = Some j ->
  scanned nc vis i rem path0 sc ->
  scanned nc vis i rem path0 (scan_step cost u v r4c i minVal sc it j).
Proof.
  intros Hit Hsc.
  assert (j < nc) as Hj by (by eapply Forall_lookup_1 in Hrem).
  assert (j ∈ rem) as Hin by (by eapply list_elem_of_lookup_2).
  unfold scan_step.
  set (r := (minVal + cost i j - u !!! i - v !!! j)%float).
  set (s1 := if (r <? sc_spc sc !!! j)%float then _ else sc).
  assert (scanned nc vis i rem path0 s1) as [Hp Hs Hlp Hls Hn Hsome].
  { unfold s1. destruct (r <? sc_spc sc !!! j)%float; [|done].
    destruct Hsc as [Hp Hs Hlp Hls Hn Hsome]. split; cbn.
    - intros j'. destruct (decide (j = j')) as [<-|Hne].
      + right. split; [done|]. rewrite get_insert by lia.
        by rewrite decide_True.
      + rewrite get_insert_ne by done. apply Hp.
    - intros j' Hj'. destruct (decide (j = j')) as [<-|Hne].
      + right. exists i. split; [done|]. rewrite get_insert by lia.
        by rewrite decide_True.
      + rewrite list_lookup_total_insert_ne, get_insert_ne by done.
        by apply Hs.
    - by rewrite length_insert.
    - by rewrite length_insert.
    - done.
    - intros it' Hit'. destruct (Hsome it' Hit') as (j' & Hj' & Hor).
      exists j'. split; [done|]. destruct Hor as [|(i' & Hi' & Hg)]; [by left|].
      right. destruct (decide (j = j')) as [<-|Hne].
      + exists i. split; [done|]. rewrite get_insert by lia.
        by rewrite decide_True.
      + exists i'. split; [done|]. by rewrite get_insert_ne. }
  destruct (_ || _); [|by split].
  split; cbn; try done.
  intros it' [= <-]. exists j. split; [done|]. by apply Hs.
Qed.

Lemma scan_loop_scanned (todo : list nat) :
  forall (seen : list nat) (sc : scan),
  rem = seen ++ todo ->
  scanned nc vis i rem path0 sc ->
  scanned nc vis i rem path0
    (scan_loop cost u v r4c i minVal todo (length seen) sc).
Proof.
  induction todo as [|j todo IH]; intros seen sc Hsplit Hsc; cbn; [done|].
  replace (S (length seen)) with (length (seen ++ [j]))
    by (rewrite length_app; cbn; lia).
  apply IH.
  - by rewrite <- app_assoc.
  - apply scan_step_scanned; [|done]. rewrite Hsplit.
    by rewrite list_lookup_middle.
Qed.

End ScanFacts.

(** *** The search for a sink *)

Section SearchFacts.

Variables nr nc : nat.
Variable cost : nat -> nat -> float.
Variables u v : list float.
Variables c4r r4c : list (option nat).
Variable k : nat.
Hypothesis Hnc : 0 < nc.
Hypothesis Hm : matching nr nc k c4r r4c.

Lemma find_sink_ok (n : nat) :
  forall (i : nat) (m : float) (s : search) (vis : list nat),
  searching nr nc k c4r vis n s -> i ∈ vis ->
  found_ok nr nc k c4r (find_sink cost u v r4c n i m s).
Proof.
  induction n as [|n IH]; intros i m s vis Hs Hi; cbn [find_sink].
  - cbn. rewrite ?infinity_eqb. done.
  - destruct Hs as [Hre Hrows Hfr Hset Hnd Hcols Hlen Hlp Hls HlSR HSR].
    set (rem := take (S n) (s_remaining s)).
    assert (Forall (fun j => j < nc) rem) as Hrem by (by apply Forall_take).
    pose proof (scan_loop_scanned nc cost u v r4c vis i m rem (s_path s)
                  Hi Hrem rem [] (Scan (s_path s) (s_spc s) infinity None)
                  eq_refl) as Hsc.
    cbn [length] in Hsc.
    set (sc := scan_loop cost u v r4c i m rem 0 _) in *.
    destruct Hsc as [Hp Hs' Hlp' Hls' Hnone Hsome].
    { split; cbn; auto. discriminate. }
    destruct (sc_lowest sc =? infinity)%float eqn:El; [done|].
    destruct (sc_index sc) as [index|] eqn:Ei.
    2:{ rewrite (Hnone eq_refl) in El. by rewrite infinity_eqb in El. }
    destruct (Hsome index eq_refl) as (j & Hj & Hor).
    destruct Hor as [Hor|(i0 & Hi0 & Hpj)]; [congruence|].
    pose proof Hj as Hj'. apply lookup_take_Some in Hj' as [Hj' Hindex].
    rewrite (list_lookup_total_correct _ _ _ Hj').
    assert (j ∈ rem) as Hjrem by (by eapply list_elem_of_lookup_2).
    assert (reached (sc_path sc) c4r k vis) as Hre'.
    { apply (reached_ext (s_path s)); [done|]. intros i' j' Hi' Hc.
      destruct (Hp j') as [->|[Hin _]]; [done|]. by destruct (Hfr i' j' Hi' Hc). }
    assert (forall i', <[i := true]> (s_SR s) !! i' = Some true -> i' ∈ vis)
      as HSR'.
    { intros i' Hi'.
      apply list_lookup_insert_Some in Hi' as [(<- & _ & _)|[_ Hi']]; auto. }
    destruct (get r4c j) as [i1|] eqn:Er.
    + destruct (swap_remove (s_remaining s) n index j Hnd Hlen Hj)
        as [Hnd' Hsub].
      assert (get c4r i1 = Some j) as Hc1 by (by apply (m_inverse _ _ _ _ _ Hm)).
      apply (IH i1 _ _ (i1 :: vis)); [|apply list_elem_of_here].
      split; cbn.
      * apply (reached_row _ _ _ i1 j i0); try done.
        intros Hin. by destruct (Hfr i1 j Hin Hc1).
      * constructor; [|done]. rewrite <- (m_rows _ _ _ _ _ Hm).
        by eapply get_lt.
      * intros i' j' Hi' Hc Hin. destruct (Hsub j' Hin) as [Hin' Hne].
        apply elem_of_cons in Hi' as [->|Hi'].
        -- congruence.
        -- by destruct (Hfr i' j' Hi' Hc).
      * intros j' Hj''. destruct (Hs' j' Hj'') as [|(i' & Hi' & Hg)]; [by left|].
        right. exists i'. split; [by apply list_elem_of_further|done].
      * done.
      * apply Forall_insert; [done|]. by apply lookup_total_below.
      * rewrite length_insert. lia.
      * done.
      * done.
      * by rewrite length_insert.
      * intros i' Hi'. apply list_elem_of_further. by apply HSR'.
    + cbn. exists vis, i0. repeat (split; [done|]). split.
      * by rewrite length_insert.
      * done.
Qed.

End SearchFacts.

(** *** One row, all rows *)

Section StepFacts.

Variables nr nc : nat.
Variable cost : nat -> nat -> float.
Hypothesis Hnc : 0 < nc.

Lemma initial_searching (st : state) (k : nat) :
  k < nr -> coherent nr nc k st ->
  searching nr nc k (st_col4row st) [k] nc
    (Search (st_path st) (replicate nc infinity) (replicate nr false)
            (replicate nc false) (reverse (seq 0 nc))).
Proof.
  intros Hk [Hm Hp Hu]. split; cbn.
  - constructor.
  - by repeat constructor.
  - intros i j Hi Hc. apply list_elem_of_singleton in Hi as ->.
    assert (is_Some (get (st_col4row st) k)) as Hs by eauto.
    apply (m_assigned _ _ _ _ _ Hm) in Hs; lia.
  - intros j Hj. left. rewrite lookup_total_replicate_2 by done.
    apply infinity_eqb.
  - rewrite take_ge by (rewrite length_reverse, length_seq; lia).
    rewrite reverse_Permutation. apply NoDup_seq.
  - apply Forall_reverse, Forall_seq. lia.
  - rewrite length_reverse, length_seq. lia.
  - done.
  - apply length_replicate.
  - apply length_replicate.
  - intros i Hi. apply lookup_replicate in Hi as [? _]. discriminate.
Qed.

Lemma update_u_Ok (k : nat) (m : float) (s : search)
    (c4r : list (option nat)) (u : list float) (vis : list nat) :
  reached (s_path s) c4r k vis ->
  length (s_SR s) = nr -> length u = nr ->
  (forall i, s_SR s !! i = Some true -> i ∈ vis) ->
  exists u', update_u k m s c4r u = Ok u' /\ length u' = nr.
Proof.
  intros Hre HlSR Hlu HSR. unfold update_u.
  set (l := imap pair _).
  destruct (comprehension_Forall (update_u_at k m s c4r) l) as [u' Hu'].
  - apply Forall_lookup. intros i [i' ui] Hi. unfold l in Hi.
    rewrite list_lookup_imap in Hi.
    destruct (_ !! i) as [x|] eqn:Ex; [|discriminate]. cbn in Hi.
    injection Hi as <- <-. unfold update_u_at. cbn [fst snd].
    apply lookup_lt_Some in Ex. rewrite length_insert, Hlu, <- HlSR in Ex.
    destruct (lookup_lt_is_Some_2 _ _ Ex) as [b Hb].
    rewrite (list_lookup_total_correct _ _ _ Hb).
    destruct b; [|done]. destruct (Nat.eqb_spec i k) as [|Hne]; [done|].
    cbn. destruct (reached_assigned _ _ _ _ i Hre (HSR i Hb)) as [|[j ->]];
      done.
  - exists u'. split; [done|]. apply comprehension_Ok, Forall2_length in Hu'.
    rewrite <- Hu'. unfold l. by rewrite length_imap, length_insert.
Qed.

(** One turn of the loop over the rows gives the next state, or finds the
    matrix infeasible. *)
Lemma step_total (st : state) (k : nat) :
  k < nr -> coherent nr nc k st ->
  (exists st', step nr nc cost st k = Ok st' /\ coherent nr nc (S k) st')
  \/ step nr nc cost st k = Raise ValueError.
Proof.
  intros Hk Hco. pose proof Hco as [Hm Hp Hu].
  pose proof (find_sink_ok nr nc cost (st_u st) (st_v st) (st_col4row st)
                (st_row4col st) k Hnc Hm nc k 0%float _ [k]
                (initial_searching st k Hk Hco) (list_elem_of_here _ _))
    as Hf.
  destruct (step nr nc cost st k) as [st'|e] eqn:E.
  - left. exists st'. split; [done|]. split.
    + by apply (step_matching nr nc cost k st).
    + unfold step, augmenting_path in E.
      destruct (find_sink _ _ _ _ _ _ _ _) as [j m s| |]; try discriminate.
      destruct Hf as (vis & i & _ & _ & _ & _ & Hlp & _).
      inv_bind E as u' Hu'. inv_bind E as cr Hcr. by injection E as <-.
    + unfold step, augmenting_path in E.
      destruct (find_sink _ _ _ _ _ _ _ _) as [j m s| |]; try discriminate.
      destruct Hf as (vis & i & Hre & _ & _ & _ & _ & HlSR & HSR).
      destruct (update_u_Ok k m s (st_col4row st) (st_u st) vis Hre HlSR Hu HSR)
        as (u1 & Hu1 & Hlu1).
      rewrite Hu1 in E. cbn in E. inv_bind E as cr Hcr. by injection E as <-.
  - right. unfold step, augmenting_path in E.
    destruct (find_sink _ _ _ _ _ _ _ _) as [j m s| |]; [|congruence|done].
    destruct Hf as (vis & i & Hre & Hrows & Hpj & Hi & _ & HlSR & HSR).
    destruct (update_u_Ok k m s (st_col4row st) (st_u st) vis Hre HlSR Hu HSR)
      as (u1 & Hu1 & _).
    rewrite Hu1 in E. cbn in E.
    destruct (augment_reached (s_path s) (st_col4row st) k vis Hre nr j i
                (st_col4row st) (st_row4col st)) as [cr Hcr]; try done.
    { apply length_below; [by eapply reached_NoDup | done]. }
    by rewrite Hcr in E.
Qed.

Lemma run_total (n : nat) :
  forall (k : nat) (st : state),
  k + n <= nr -> coherent nr nc k st ->
  (exists st', run nr nc cost (seq k n) st = Ok st')
  \/ run nr nc cost (seq k n) st = Raise ValueError.
Proof.
  induction n as [|n IH]; intros k st Hkn Hco; cbn; [eauto|].
  destruct (step_total st k) as [(st' & -> & Hco')| ->]; [lia|done| |by right].
  cbn. apply IH; [lia|done].
Qed.

Lemma initial_coherent : coherent nr nc 0 (initial nr nc).
Proof.
  split; cbn.
  - apply initial_matching.
  - apply length_replicate.
  - apply length_replicate.
Qed.

End StepFacts.

(** The solver returns an assignment or raises [ValueError]: its loops stay
    within their bounds. *)
Lemma solve_total (nr nc : nat) (cost : nat -> nat -> float) :
  (exists ab, solve nr nc cost = Ok ab) \/ solve nr nc cost = Raise ValueError.
Proof.
  unfold solve.
  destruct (Nat.eqb_spec nr 0) as [Hr|Hr]; [eauto|].
  destruct (Nat.eqb_spec nc 0) as [Hc|Hc]; [eauto|]. cbn [orb].
  destruct (Nat.ltb_spec nc nr) as [Hlt|Hge].
  - destruct (has_invalid _ _ _); [by right|].
    destruct (run_total nc nr (fun i j => cost j i) ltac:(lia) nc 0
                (initial nc nr) ltac:(lia) (initial_coherent nc nr))
      as [[st ->]| ->]; cbn; eauto.
  - destruct (has_invalid _ _ _); [by right|].
    destruct (run_total nr nc cost ltac:(lia) nr 0
                (initial nr nc) ltac:(lia) (initial_coherent nr nc))
      as [[st ->]| ->]; cbn; eauto.
Qed.

(** What a complete matching says about the entries of [col4row]. *)
Section Complete.

Variables nr nc : nat.
Variables c4r r4c : list (option nat).
Hypothesis complete : matching nr nc nr c4r r4c.

Lemma complete_get (i : nat) :
  i < nr -> exists j, get c4r i = Some j /\ j < nc.
Proof.
  intros Hi. destruct complete as [Hr Hc Hinv Hdom].
  destruct (proj2 (Hdom i Hi) Hi) as [j Hj]. exists j. split; [done|].
  apply Hinv in Hj. rewrite <- Hc. eapply get_lt; eauto.
Qed.

Lemma complete_inj (i i' j : nat) :
  get c4r i = Some j -> get c4r i' = Some j -> i = i'.
Proof.
  destruct complete as [_ _ Hinv _]. rewrite !Hinv. congruence.
Qed.

Lemma complete_key (i : nat) :
  i < nr -> (0 <= to_Z (get c4r i) < Z.of_nat nc)%Z.
Proof.
  intros Hi. destruct (complete_get i Hi) as (j & -> & Hj). cbn. lia.
Qed.

Lemma complete_key_inj (i i' : nat) :
  i < nr -> i' < nr -> to_Z (get c4r i) = to_Z (get c4r i') -> i = i'.
Proof.
  intros Hi Hi'.
  destruct (complete_get i Hi) as (j & Hj & _).
  destruct (complete_get i' Hi') as (j' & Hj' & _).
  rewrite Hj, Hj'. cbn. intros E. apply (complete_inj i i' j); [done|].
  rewrite Hj'. f_equal. lia.
Qed.

End Complete.

#[local] Instance key_le_trans (v : list (option nat)) : Transitive (key_le v).
Proof. unfold key_le. intros i j k. lia. Qed.

#[local] Instance key_le_total (v : list (option nat)) : Total (key_le v).
Proof. unfold key_le. intros i j. lia. Qed.

Lemma increasing_seq (n : nat) : strictly_increasing (Z.of_nat <$> seq 0 n).
Proof.
  intros i j x y Hij Hi Hj.
  apply list_lookup_fmap_Some_1 in Hi as (i' & -> & Hi).
  apply list_lookup_fmap_Some_1 in Hj as (j' & -> & Hj).
  apply lookup_seq in Hi as [-> _]. apply lookup_seq in Hj as [-> _]. lia.
Qed.

Lemma increasing_sorted (l : list Z) :
  StronglySorted Z.le l -> NoDup l -> strictly_increasing l.
Proof.
  induction 1 as [|x l Hs IH Hx]; intros Hnd i j a b Hij Hi Hj.
  - discriminate.
  - apply NoDup_cons in Hnd as [Hnx Hnd].
    destruct j as [|j]; [lia|]. cbn in Hj. destruct i as [|i]; cbn in Hi.
    + injection Hi as <-.
      assert (b ∈ l) as Hb by (by eapply list_elem_of_lookup_2).
      assert (x <> b) by (intros ->; done).
      rewrite Forall_forall in Hx. specialize (Hx b Hb). lia.
    + eapply (IH Hnd i j); [lia|done|done].
Qed.

Lemma assignment_empty (nr nc : nat) :
  nr = 0 \/ nc = 0 -> assignment nr nc [] [].
Proof.
  intros H. split; try constructor.
  - cbn. lia.
  - cbn. lia.
  - intros i j x y _ Hi. discriminate.
Qed.

(** The solver on a matrix with no more rows than columns. *)
Lemma assignment_wide (nr nc : nat) (c4r r4c : list (option nat)) :
  nr <= nc -> matching nr nc nr c4r r4c ->
  assignment nr nc (Z.of_nat <$> seq 0 nr) (to_Z <$> c4r).
Proof.
  intros Hle Hm. pose proof (m_rows _ _ _ _ _ Hm) as Hlen. split.
  - rewrite length_fmap, length_seq. lia.
  - rewrite length_fmap. lia.
  - apply Forall_fmap, Forall_seq. intros i Hi. cbn. lia.
  - apply Forall_fmap, Forall_lookup. intros i o Hi. cbn.
    assert (i < nr) as Hi' by (rewrite <- Hlen; by eapply lookup_lt_Some).
    pose proof (complete_key nr nc c4r r4c Hm i Hi') as Hk.
    unfold get in Hk. by rewrite Hi in Hk.
  - apply NoDup_fmap_2; [apply _ | apply NoDup_seq].
  - apply NoDup_alt. intros i i' z Hi Hi'.
    apply list_lookup_fmap_Some_1 in Hi as (o & -> & Hi).
    apply list_lookup_fmap_Some_1 in Hi' as (o' & Ho & Hi').
    assert (i < nr) as Hlt by (rewrite <- Hlen; by eapply lookup_lt_Some).
    assert (i' < nr) as Hlt' by (rewrite <- Hlen; by eapply lookup_lt_Some).
    apply (complete_key_inj nr nc c4r r4c Hm); [done|done|].
    unfold get. by rewrite Hi, Hi'.
  - apply increasing_seq.
Qed.

(** The solver on a transposed matrix: [c4r] gives, for every column of the
    matrix, its row. *)
Lemma assignment_tall (nr nc : nat) (c4r r4c : list (option nat)) :
  nc < nr -> matching nc nr nc c4r r4c ->
  assignment nr nc (to_Z <$> (get c4r <$> argsort c4r))
                   (Z.of_nat <$> argsort c4r).
Proof.
  intros Hlt Hm. pose proof (m_rows _ _ _ _ _ Hm) as Hlen.
  assert (argsort c4r ≡ₚ seq 0 nc) as Hperm
    by (unfold argsort; rewrite merge_sort_Permutation, Hlen; done).
  assert (Forall (fun i => i < nc) (argsort c4r)) as Hidx.
  { rewrite Hperm. apply Forall_seq. lia. }
  assert (NoDup (argsort c4r)) as Hnd by (rewrite Hperm; apply NoDup_seq).
  rewrite <- list_fmap_compose.
  assert (NoDup ((to_Z ∘ get c4r) <$> argsort c4r)) as Hkeys.
  { apply NoDup_fmap_2_strong; [|done]. intros i i' Hi Hi' E.
    rewrite Forall_forall in Hidx.
    apply (complete_key_inj nc nr c4r r4c Hm); auto. }
  split.
  - rewrite length_fmap, Hperm, length_seq. lia.
  - rewrite length_fmap, Hperm, length_seq. lia.
  - apply Forall_fmap. eapply Forall_impl; [exact Hidx|]. intros i Hi.
    apply (complete_key nc nr c4r r4c Hm i Hi).
  - apply Forall_fmap. eapply Forall_impl; [exact Hidx|]. intros i Hi.
    cbn in Hi. unfold compose. lia.
  - done.
  - apply NoDup_fmap_2; [apply _ | done].
  - apply increasing_sorted; [|done].
    apply StronglySorted_fmap with (R1 := key_le c4r); [done|].
    apply StronglySorted_merge_sort; apply _.
Qed.

(** What [solve] returns is an assignment. *)
Lemma solve_assignment (nr nc : nat) (cost : nat -> nat -> float)
    (a b : list Z) :
  solve nr nc cost = Ok (a, b) -> assignment nr nc a b.
Proof.
  unfold solve. intros H.
  destruct (Nat.eqb_spec nr 0) as [Hr|Hr].
  { injection H as <- <-. apply assignment_empty. by left. }
  destruct (Nat.eqb_spec nc 0) as [Hc|Hc].
  { injection H as <- <-. apply assignment_empty. by right. }
  cbn [orb] in H. destruct (Nat.ltb_spec nc nr) as [Hlt|Hge].
  - destruct (has_invalid _ _ _); [discriminate|]. inv_bind H as st Hst.
    injection H as <- <-. apply run_complete in Hst; [|lia].
    by eapply assignment_tall.
  - destruct (has_invalid _ _ _); [discriminate|]. inv_bind H as st Hst.
    injection H as <- <-. apply run_complete in Hst; [|lia].
    by eapply assignment_wide.
Qed.

(** A matrix with no column, or no row, is solved by the empty assignment. *)
Lemma solve_empty (nr nc : nat) (cost : nat -> nat -> float) :
  nr = 0 \/ nc = 0 -> solve nr nc cost = Ok ([], []).
Proof.
  unfold solve. intros [-> | ->]; [done|].
  by rewrite orb_true_r.
Qed.

Lemma has_invalid_false (nr nc : nat) (cost : nat -> nat -> float) :
  has_invalid nr nc cost = false ->
  forall i j, i < nr -> j < nc -> invalid (cost i j) = false.
Proof.
  unfold has_invalid. intros H i j Hi Hj.
  destruct (invalid (cost i j)) eqn:E; [|done].
  enough (existsb (fun i => existsb (fun j => invalid (cost i j)) (seq 0 nc))
            (seq 0 nr) = true) by congruence.
  apply existsb_exists. exists i. split; [apply in_seq; lia|].
  apply existsb_exists. exists j. split; [apply in_seq; lia|done].
Qed.

(** [solve] returns only for a matrix free of NaN and of minus infinity. *)
Lemma solve_valid (nr nc : nat) (cost : nat -> nat -> float)
    (ab : list Z * list Z) :
  solve nr nc cost = Ok ab ->
  forall i j, i < nr -> j < nc -> invalid (cost i j) = false.
Proof.
  unfold solve. intros H i j Hi Hj.
  destruct (Nat.eqb_spec nr 0) as [Hr|Hr]; [lia|].
  destruct (Nat.eqb_spec nc 0) as [Hc|Hc]; [lia|].
  cbn [orb] in H. destruct (Nat.ltb_spec nc nr) as [Hlt|Hge].
  - destruct (has_invalid _ _ _) eqn:E; [discriminate|].
    by apply (has_invalid_false _ _ _ E j i).
  - destruct (has_invalid _ _ _) eqn:E; [discriminate|].
    by apply (has_invalid_false _ _ _ E i j).
Qed.

End LsapFacts.

(** ** Tensors *)

Module TensorFacts.
Import Tensor.

Lemma broadcast_same (n : nat) : broadcast n n = Ok n.
Proof. unfold broadcast. by rewrite Nat.eqb_refl. Qed.

Lemma bidx_lt (n i : nat) : i < n -> bidx n i = i.
Proof.
  unfold bidx. destruct (Nat.eqb_spec n 1) as [->|]; [lia|done].
Qed.

(** Reading through two broadcasts is reading through one. *)
Lemma bidx_broadcast (a b n i : nat) :
  broadcast a b = Ok n -> bidx a (bidx n i) = bidx a i.
Proof.
  unfold broadcast, bidx. intros H.
  destruct (Nat.eqb_spec a b) as [->|Hab].
  { injection H as <-. by destruct (Nat.eqb_spec b 1). }
  destruct (Nat.eqb_spec a 1) as [->|Ha]; [done|].
  destruct (Nat.eqb_spec b 1) as [->|Hb]; [|discriminate].
  injection H as <-. by destruct (Nat.eqb_spec a 1).
Qed.

Lemma bidx_broadcast_r (a b n i : nat) :
  broadcast a b = Ok n -> bidx b (bidx n i) = bidx b i.
Proof.
  unfold broadcast, bidx. intros H.
  destruct (Nat.eqb_spec a b) as [->|Hab].
  { injection H as <-. by destruct (Nat.eqb_spec b 1). }
  destruct (Nat.eqb_spec a 1) as [->|Ha].
  { injection H as <-. by destruct (Nat.eqb_spec b 1). }
  destruct (Nat.eqb_spec b 1) as [->|Hb]; [done|discriminate].
Qed.


Lemma bget_in_range (t : tensor2) (r c : nat) :
  r < rows t -> c < cols t -> bget t r c = at2 t r c.
Proof. intros Hr Hc. unfold bget. by rewrite !bidx_lt. Qed.

Lemma zip_Ok (f : float -> float -> float) (a b c : tensor2) :
  zip f a b = Ok c ->
  broadcast (rows a) (rows b) = Ok (rows c)
  /\ broadcast (cols a) (cols b) = Ok (cols c)
  /\ forall i j, at2 c i j = f (bget a i j) (bget b i j).
Proof.
  unfold zip. intros H. inv_bind H as n Hn. inv_bind H as m Hm.
  injection H as <-. cbn. auto.
Qed.

Lemma zip_same_shape (f : float -> float -> float) (a b : tensor2) :
  rows a = rows b -> cols a = cols b ->
  zip f a b = Ok (T2 (rows a) (cols a) (fun r c => f (bget a r c) (bget b r c))).
Proof.
  intros Hr Hc. unfold zip. by rewrite <- Hr, <- Hc, !broadcast_same.
Qed.

Lemma length_chunks (t : tensor3) (sizes : list nat) (off : nat) :
  length (chunks t off sizes) = length sizes.
Proof.
  revert off; induction sizes as [|s sizes IH]; intros off; cbn; [done|].
  by rewrite IH.
Qed.

(** The [k]-th chunk starts at the sum of the sizes before it. *)
Lemma lookup_chunks (t : tensor3) (sizes : list nat) (k s : nat) :
  sizes !! k = Some s ->
  forall off,
  chunks t off sizes !! k
  = Some (T3 (dim0 t) (dim1 t) s
            (fun i j c => at3 t i j (off + sum_list (take k sizes) + c))).
Proof.
  revert k; induction sizes as [|s0 sizes IH]; intros k Hk off;
    [discriminate|].
  destruct k as [|k]; cbn in *.
  - injection Hk as ->. by rewrite Nat.add_0_r.
  - rewrite (IH k Hk). by rewrite Nat.add_assoc.
Qed.

Lemma view3_Ok (t : tensor2) (b q : nat) (t3 : tensor3) :
  view3 t b q = Ok t3 ->
  dim0 t3 = b /\ dim1 t3 = q /\ b * q <> 0
  /\ dim2 t3 * (b * q) = rows t * cols t.
Proof.
  unfold view3. intros H.
  destruct (Nat.eqb_spec (b * q) 0) as [|Hbq]; [discriminate|].
  destruct (Nat.eqb_spec ((rows t * cols t) mod (b * q)) 0) as [Hm|];
    [|discriminate].
  injection H as <-. cbn. repeat split; try done.
  apply Nat.Div0.div_exact in Hm. lia.
Qed.

Lemma comprehension_wrap_index (n : nat) (ids : list Z) (ks : list nat) :
  comprehension (wrap_index n) ids = Ok ks ->
  forall j c, ids !! j = Some c ->
  exists k, wrap_index n c = Ok k /\ ks !!! j = k.
Proof.
  intros H j c Hj. apply comprehension_Ok in H.
  destruct (Forall2_lookup_l _ _ _ _ _ H Hj) as (k & Hk & Hw).
  exists k. split; [done|]. by apply list_lookup_total_correct.
Qed.

Lemma index_cols_Ok (t : tensor2) (ids : list Z) (r : tensor2) :
  index_cols t ids = Ok r ->
  rows r = rows t /\ cols r = length ids
  /\ forall i j c, ids !! j = Some c ->
     exists k, wrap_index (cols t) c = Ok k /\ at2 r i j = at2 t i k.
Proof.
  unfold index_cols. intros H. inv_bind H as ks Hks. injection H as <-. cbn.
  split; [done|]. split.
  - apply comprehension_Ok in Hks. symmetry. by eapply Forall2_length.
  - intros i j c Hj.
    destruct (comprehension_wrap_index _ _ _ Hks j c Hj) as (k & Hk & ->).
    eauto.
Qed.

Lemma cat_Ok (ts : list tensor2) (t : tensor2) :
  cat ts = Ok t -> rows t = sum_list (rows <$> ts).
Proof.
  unfold cat. destruct ts as [|t0 ts]; [discriminate|].
  destruct (forallb _ _); [|discriminate]. by intros [= <-].
Qed.

Lemma cdist1_Ok (x y d : tensor2) :
  cdist1 x y = Ok d ->
  cols x = cols y /\ rows d = rows x /\ cols d = rows y /\ at2 d = l1 x y.
Proof.
  unfold cdist1. destruct (Nat.eqb_spec (cols x) (cols y)); [|discriminate].
  by intros [= <-].
Qed.

End TensorFacts.

(** ** The cost matrix *)

Section CostFacts.

Context {TM : TorchMath} {MO : MomentOps}.
Import Tensor TensorFacts.

Lemma kl_cost_rows (a b : tensor2) : rows (kl_cost a b) = rows a.
Proof.
  unfold kl_cost, kl_raw. cbn. rewrite kl_rows. cbn.
  apply denormalize_rows.
Qed.

Lemma kl_cost_cols (a b : tensor2) : cols (kl_cost a b) = rows b.
Proof.
  unfold kl_cost, kl_raw. cbn. rewrite kl_cols. cbn.
  apply denormalize_rows.
Qed.

Lemma sanitize_finite (x : float) : is_finite (sanitize x) = true.
Proof.
  unfold sanitize, is_finite.
  destruct (PrimFloat.is_nan x) eqn:En; [done|].
  destruct (PrimFloat.is_infinity x) eqn:Ei; [done|].
  cbn [orb]. by rewrite En, Ei.
Qed.

Lemma classification_cost_Ok (P : tensor2) (ids : list Z) (cc : tensor2) :
  classification_cost P ids = Ok cc ->
  rows cc = rows P /\ cols cc = length ids
  /\ forall i j c, i < rows P -> ids !! j = Some c ->
     exists k, wrap_index (cols P) c = Ok k
       /\ at2 cc i j = (pos_cost (at2 P i k) - neg_cost (at2 P i k))%float.
Proof.
  unfold classification_cost. intros H.
  inv_bind H as p Hp. inv_bind H as n Hn.
  apply index_cols_Ok in Hp as (Hpr & Hpc & Hpe).
  apply index_cols_Ok in Hn as (Hnr & Hnc & Hne).
  apply zip_Ok in H as (Hr & Hc & He). cbn in *.
  rewrite Hpr, Hnr, broadcast_same in Hr. injection Hr as Hr.
  rewrite Hpc, Hnc, broadcast_same in Hc. injection Hc as Hc.
  split; [done|]. split; [done|]. intros i j c Hi Hj.
  destruct (Hpe i j c Hj) as (k & Hk & Ep).
  destruct (Hne i j c Hj) as (k' & Hk' & En).
  assert (k' = k) as -> by congruence.
  exists k. split; [done|]. rewrite He.
  assert (j < length ids) by (by eapply lookup_lt_Some).
  rewrite !bget_in_range by lia. by rewrite Ep, En.
Qed.

Lemma wrap_index_in_range (n : nat) (c : Z) :
  (- Z.of_nat n <= c < Z.of_nat n)%Z -> is_ok (wrap_index n c) = true.
Proof.
  intros Hc. unfold wrap_index.
  destruct (Z.leb_spec 0 c), (Z.ltb_spec c (Z.of_nat n)); cbn; try done;
    try lia.
  destruct (Z.leb_spec (- Z.of_nat n) c), (Z.ltb_spec c 0); cbn; try done;
    lia.
Qed.

Lemma classification_cost_in_range (P : tensor2) (ids : list Z) :
  Forall (fun c => (- Z.of_nat (cols P) <= c < Z.of_nat (cols P))%Z) ids ->
  exists cc, classification_cost P ids = Ok cc.
Proof.
  intros Hids.
  destruct (comprehension_Forall (wrap_index (cols P)) ids) as [ks Hks].
  { eapply Forall_impl; [exact Hids|]. intros c. apply wrap_index_in_range. }
  unfold classification_cost, index_cols. cbn [cols map].
  rewrite Hks. cbn. unfold sub. rewrite zip_same_shape by done. eauto.
Qed.

Variable self : HungarianMatcher.

Lemma combine_Ok (L CC KL C : tensor2) :
  combine self L CC KL = Ok C ->
  forall i j,
  at2 C i j = (cost_moments self * bget L i j + cost_class self * bget CC i j
               + cost_kl self * bget KL i j)%float.
Proof.
  unfold combine. intros H i j. inv_bind H as s Hs.
  apply zip_Ok in Hs as (Hr & Hc & Hs). apply zip_Ok in H as (_ & _ & H).
  rewrite H. unfold bget at 1. rewrite Hs. cbn in Hr, Hc. unfold bget. cbn.
  rewrite (bidx_broadcast _ _ _ _ Hr), (bidx_broadcast _ _ _ _ Hc).
  by rewrite (bidx_broadcast_r _ _ _ _ Hr), (bidx_broadcast_r _ _ _ _ Hc).
Qed.

Lemma combine_same_shape (L CC KL : tensor2) :
  rows CC = rows L -> cols CC = cols L ->
  rows KL = rows L -> cols KL = cols L ->
  exists C, combine self L CC KL = Ok C
    /\ rows C = rows L /\ cols C = cols L.
Proof.
  intros Hr Hc Hr' Hc'. unfold combine, add.
  rewrite zip_same_shape by (cbn; congruence). cbn.
  rewrite zip_same_shape by (cbn; congruence). cbn. eauto.
Qed.

Lemma cost_matrix_Ok (out : outputs) (targets : list target) (C : tensor2) :
  cost_matrix self out targets = Ok C ->
  exists tgt_ids tgt_moments CC L,
    cat1 (labels <$> targets) = Ok tgt_ids
    /\ cat (moments <$> targets) = Ok tgt_moments
    /\ classification_cost (out_prob_of out) tgt_ids = Ok CC
    /\ cdist1 (out_moments_of out) tgt_moments = Ok L
    /\ combine self L CC (kl_cost (out_moments_of out) tgt_moments) = Ok C.
Proof.
  unfold cost_matrix. intros H.
  inv_bind H as tgt_ids Hids. inv_bind H as tgt_moments Hm.
  inv_bind H as CC HCC. inv_bind H as L HL.
  exists tgt_ids, tgt_moments, CC, L. auto.
Qed.

Lemma cat_same_width (w : nat) (ts : list tensor2) :
  ts <> [] -> Forall (fun t => cols t = w) ts ->
  exists t, cat ts = Ok t /\ rows t = sum_list (rows <$> ts) /\ cols t = w.
Proof.
  intros Hne Hw. destruct ts as [|t0 ts]; [done|]. unfold cat.
  apply Forall_cons in Hw as [Hw0 Hw].
  assert (forallb (fun t' => cols t' =? cols t0) ts = true) as ->.
  { clear Hne. induction Hw as [|t ts Ht _ IH]; [done|]. cbn.
    rewrite IH, Ht, Hw0. by rewrite Nat.eqb_refl. }
  eauto.
Qed.

Lemma labels_count (targets : list target) :
  Forall (fun t => length (labels t) = rows (moments t)) targets ->
  length (concat (labels <$> targets)) = num_targets targets.
Proof.
  unfold num_targets. induction 1 as [|t ts Ht _ IH]; [done|]. cbn.
  rewrite length_app, IH, Ht. done.
Qed.

(** On a well-shaped input the cost matrix is built, with one row per
    prediction and one column per target moment row. *)
Lemma cost_matrix_well_shaped (out : outputs) (targets : list target) :
  well_shaped out targets ->
  exists C, cost_matrix self out targets = Ok C
    /\ rows C = dim0 (pred_logits out) * dim1 (pred_logits out)
    /\ cols C = num_targets targets.
Proof.
  intros [Hb Hq Hp Ht Hw Hl Hc]. unfold cost_matrix.
  assert (cat1 (labels <$> targets) = Ok (concat (labels <$> targets))) as ->.
  { destruct targets as [|t ts]; [by destruct Ht | done]. }
  cbn.
  destruct (cat_same_width (dim2 (pred_moments out)) (moments <$> targets))
    as (tm & -> & Htr & Htc).
  { by destruct targets. }
  { by apply Forall_fmap. }
  cbn.
  destruct (classification_cost_in_range (out_prob_of out)
              (concat (labels <$> targets))) as [CC HCC].
  { apply Forall_concat, Forall_fmap. exact Hc. }
  rewrite HCC. cbn.
  apply classification_cost_Ok in HCC as (HCr & HCc & _).
  unfold cdist1. cbn [cols out_moments_of flatten01]. rewrite Htc.
  rewrite Nat.eqb_refl. cbn.
  rewrite labels_count in HCc by done. cbn in HCr.
  destruct (combine_same_shape
              (T2 (dim0 (pred_moments out) * dim1 (pred_moments out))
                  (rows tm) (l1 (out_moments_of out) tm))
              CC (kl_cost (out_moments_of out) tm))
    as (C & HC & HCr' & HCc').
  - cbn. rewrite HCr. congruence.
  - cbn. by rewrite HCc.
  - by rewrite kl_cost_rows.
  - by rewrite kl_cost_cols.
  - exists C. cbn in HCr', HCc'. split; [done|].
    rewrite HCr', HCc', Hb, Hq. done.
Qed.

End CostFacts.

(** ** The split into blocks *)

Lemma comprehension_bind {A B D : Type} (f : A -> result B)
    (g : B -> result D) (l : list A) (bs : list B) :
  comprehension f l = Ok bs ->
  comprehension (fun a => b ← f a; g b) l = comprehension g bs.
Proof.
  revert bs; induction l as [|a l IH]; intros bs H; cbn in H.
  - by injection H as <-.
  - inv_bind H as b Hb. inv_bind H as bs' Hbs. injection H as <-. cbn.
    rewrite Hb. cbn. by rewrite (IH _ Hbs).
Qed.

Lemma comprehension_split {A B D : Type} (f : A -> result B)
    (g : B -> result D) (l : list A) (ds : list D) :
  comprehension (fun a => b ← f a; g b) l = Ok ds ->
  exists bs, comprehension f l = Ok bs
    /\ Forall2 (fun b d => g b = Ok d) bs ds.
Proof.
  revert ds; induction l as [|a l IH]; intros ds H; cbn in H.
  - injection H as <-. exists []. split; [done|constructor].
  - inv_bind H as d Hd. inv_bind H as ds' Hds. injection H as <-.
    inv_bind Hd as b Hb. destruct (IH _ Hds) as (bs & Hbs & HF).
    exists (b :: bs). cbn. rewrite Hb. cbn. rewrite Hbs. cbn.
    split; [done|]. by constructor.
Qed.

Lemma sum_take_le (sizes : list nat) (k s : nat) :
  sizes !! k = Some s -> sum_list (take k sizes) + s <= sum_list sizes.
Proof.
  revert k; induction sizes as [|s0 sizes IH]; intros k Hk; [done|].
  destruct k as [|k]; cbn in *.
  - injection Hk as ->. lia.
  - specialize (IH k Hk). lia.
Qed.

Section ForwardFacts.

Context {TM : TorchMath} {MO : MomentOps}.
Variable self : HungarianMatcher.
Import Tensor TensorFacts.

(** A call that returns has handed every block to the solver, and the
    solver has answered for each. *)
Lemma forward_blocks (out : outputs) (targets : list target)
    (res : list (list Z * list Z)) :
  forward self out targets = Ok res ->
  exists blocks, cost_blocks self out targets = Ok blocks
    /\ Forall2 (fun b r => Lsap.linear_sum_assignment b = Ok r) blocks res.
Proof.
  unfold forward, cost_blocks. intros H. inv_bind H as ics Hics.
  rewrite Hics. cbn. unfold assign in H.
  by apply comprehension_split in H.
Qed.

(** The blocks: one per target, each with one row per query and one column
    per box of its target; there are no more targets than batch elements. *)
Lemma cost_blocks_shape (out : outputs) (targets : list target)
    (blocks : list tensor2) :
  cost_blocks self out targets = Ok blocks ->
  length blocks = length targets
  /\ length targets <= dim0 (pred_logits out)
  /\ forall k t b, targets !! k = Some t -> blocks !! k = Some b ->
       rows b = dim1 (pred_logits out) /\ cols b = len (boxes t).
Proof.
  unfold cost_blocks, split_cost. intros H.
  inv_bind H as ics Hics. inv_bind Hics as C HC. inv_bind Hics as C3 HC3.
  inv_bind Hics as cs Hcs. injection Hics as <-.
  apply view3_Ok in HC3 as (Hd0 & Hd1 & Hbq & _).
  unfold split_last in Hcs.
  destruct (Nat.eqb_spec (sum_list (sizes_of targets)) (dim2 C3));
    [|discriminate].
  injection Hcs as <-. apply comprehension_Ok in H.
  pose proof (Forall2_length _ _ _ H) as Hlen.
  rewrite length_imap, length_chunks in Hlen. unfold sizes_of in Hlen.
  rewrite length_fmap in Hlen.
  assert (forall k t b, targets !! k = Some t -> blocks !! k = Some b ->
            k < dim0 (pred_logits out)
            /\ rows b = dim1 (pred_logits out) /\ cols b = len (boxes t))
    as Hall.
  { intros k t b Ht Hb.
    destruct (Forall2_lookup_r _ _ _ _ _ H Hb) as (ic & Hic & Hsel).
    rewrite list_lookup_imap in Hic.
    assert (sizes_of targets !! k = Some (len (boxes t))) as Hs
      by (unfold sizes_of; by rewrite list_lookup_fmap, Ht).
    rewrite (lookup_chunks _ _ _ _ Hs) in Hic. cbn in Hic.
    injection Hic as <-.
    unfold select0 in Hsel. cbn [fst snd dim0 dim1 dim2] in Hsel.
    destruct (Nat.ltb_spec k (dim0 C3)); [|discriminate].
    injection Hsel as <-. cbn. split; [lia|done]. }
  split; [done|]. split.
  - destruct (length targets) as [|n] eqn:E; [lia|].
    destruct (lookup_lt_is_Some_2 targets n) as [t Ht]; [lia|].
    destruct (lookup_lt_is_Some_2 blocks n) as [b Hb]; [lia|].
    destruct (Hall n t b Ht Hb). lia.
  - intros k t b Ht Hb. by destruct (Hall k t b Ht Hb).
Qed.

(** What a call that returns gives for one example: the solver's assignment
    for a block of [num_queries] rows and [len(boxes)] columns. *)
Lemma forward_example (out : outputs) (targets : list target)
    (res : list (list Z * list Z)) :
  forward self out targets = Ok res ->
  length res = length targets
  /\ forall k t a b, targets !! k = Some t -> res !! k = Some (a, b) ->
       assignment (dim1 (pred_logits out)) (len (boxes t)) a b.
Proof.
  intros H. apply forward_blocks in H as (blocks & Hb & HF).
  apply cost_blocks_shape in Hb as (Hlen & _ & Hshape).
  pose proof (Forall2_length _ _ _ HF) as Hlen'. split; [lia|].
  intros k t a b Ht Hr.
  destruct (Forall2_lookup_r _ _ _ _ _ HF Hr) as (blk & Hblk & Hsolve).
  destruct (Hshape k t blk Ht Hblk) as [<- <-].
  by apply LsapFacts.solve_assignment in Hsolve.
Qed.

Lemma view3_rows (C : tensor2) (b q : nat) :
  rows C = b * q -> b * q <> 0 ->
  view3 C b q
  = Ok (T3 b q (cols C)
          (fun i j k => at2 C (((i * q + j) * cols C + k) / cols C)
                              (((i * q + j) * cols C + k) mod cols C))).
Proof.
  unfold view3. intros Hr Hbq. rewrite Hr.
  destruct (Nat.eqb_spec (b * q) 0); [done|].
  replace (b * q * cols C) with (cols C * (b * q)) by lia.
  rewrite Nat.Div0.mod_mul, Nat.div_mul by done. done.
Qed.

(** On a well-shaped input with no more targets than batch elements, the
    split succeeds as soon as the ["boxes"] lengths add up to the number of
    columns; block [k] is cut out of the rows of example [k] at the columns
    that start at the sum of the ["boxes"] lengths before it. *)
Lemma forward_well_shaped (out : outputs) (targets : list target) :
  well_shaped out targets ->
  length targets <= dim0 (pred_logits out) ->
  sum_list (sizes_of targets) = num_targets targets ->
  exists C blocks,
    cost_matrix self out targets = Ok C
    /\ cost_blocks self out targets = Ok blocks
    /\ forward self out targets
       = comprehension Lsap.linear_sum_assignment blocks
    /\ ((exists res, forward self out targets = Ok res)
        \/ forward self out targets = Raise ValueError)
    /\ length blocks = length targets
    /\ forall k t b, targets !! k = Some t -> blocks !! k = Some b ->
         rows b = dim1 (pred_logits out) /\ cols b = len (boxes t)
         /\ forall q j, j < len (boxes t) ->
            at2 b q j = at2 C (k * dim1 (pred_logits out) + q)
                              (sum_list (take k (sizes_of targets)) + j).
Proof.
  intros Hws Hlen Hsum.
  destruct (cost_matrix_well_shaped self out targets Hws)
    as (C & HC & Hr & Hc).
  pose proof (ws_predictions _ _ Hws) as Hbq.
  set (bs := dim0 (pred_logits out)) in *.
  set (nq := dim1 (pred_logits out)) in *.
  assert (split_cost self out targets
          = Ok (imap pair (chunks
                  (T3 bs nq (cols C)
                     (fun i j k => at2 C (((i * nq + j) * cols C + k) / cols C)
                                   (((i * nq + j) * cols C + k) mod cols C)))
                  0 (sizes_of targets)))) as Hsplit.
  { unfold split_cost. rewrite HC. cbn. fold bs nq.
    rewrite (view3_rows C bs nq Hr Hbq). cbn. unfold split_last. cbn.
    rewrite Hsum, Hc, Nat.eqb_refl. done. }
  set (C3 := T3 bs nq (cols C) _) in Hsplit.
  destruct (comprehension_Forall (fun ic : nat * tensor3 => select0 ic.2 ic.1)
              (imap pair (chunks C3 0 (sizes_of targets)))) as [blocks Hblocks].
  { apply Forall_lookup. intros k ic Hic. rewrite list_lookup_imap in Hic.
    destruct (chunks C3 0 (sizes_of targets) !! k) as [c|] eqn:Ec;
      [|discriminate].
    cbn in Hic. injection Hic as <-.
    assert (k < length targets) as Hk.
    { apply lookup_lt_Some in Ec. rewrite length_chunks in Ec.
      unfold sizes_of in Ec. by rewrite length_fmap in Ec. }
    destruct (lookup_lt_is_Some_2 (sizes_of targets) k) as [s Hs].
    { unfold sizes_of. by rewrite length_fmap. }
    rewrite (lookup_chunks _ _ _ _ Hs) in Ec. injection Ec as <-.
    unfold select0. cbn [fst snd dim0].
    destruct (Nat.ltb_spec k bs); [done|lia]. }
  assert (cost_blocks self out targets = Ok blocks) as Hcb.
  { unfold cost_blocks. rewrite Hsplit. done. }
  assert (forward self out targets
          = comprehension Lsap.linear_sum_assignment blocks) as Hfw.
  { unfold forward. rewrite Hsplit. cbn. unfold assign.
    by apply comprehension_bind. }
  exists C, blocks. split; [done|]. split; [done|]. split; [done|]. split.
  { rewrite Hfw. apply comprehension_total, Forall_forall. intros b _.
    apply LsapFacts.solve_total. }
  destruct (cost_blocks_shape out targets blocks Hcb)
    as (Hl & _ & Hshape).
  split; [done|]. intros k t b Ht Hb.
  destruct (Hshape k t b Ht Hb) as [Hrows Hcols].
  split; [done|]. split; [done|]. intros q j Hj.
  apply comprehension_Ok in Hblocks.
  destruct (Forall2_lookup_r _ _ _ _ _ Hblocks Hb) as (ic & Hic & Hsel).
  rewrite list_lookup_imap in Hic.
  assert (sizes_of targets !! k = Some (len (boxes t))) as Hs
    by (unfold sizes_of; by rewrite list_lookup_fmap, Ht).
  rewrite (lookup_chunks _ _ _ _ Hs) in Hic. cbn in Hic.
  injection Hic as <-. unfold select0 in Hsel.
  cbn [fst snd dim0 dim1 dim2] in Hsel.
  destruct (Nat.ltb_spec k bs); [|discriminate].
  injection Hsel as <-. cbn.
  pose proof (sum_take_le _ _ _ Hs) as Hle. rewrite Hsum, <- Hc in Hle.
  set (off := sum_list (take k (sizes_of targets))) in *.
  assert (off + j < cols C) as Hlt by lia.
  f_equal.
  - symmetry. apply (Nat.div_unique _ _ _ (off + j)); [done|lia].
  - symmetry. apply (Nat.mod_unique _ _ (k * nq + q)); [done|lia].
Qed.

(** A single target without objects is matched by the empty assignment. *)
Lemma forward_no_objects (out : outputs) :
  well_shaped out Sample.targets_none ->
  1 <= dim0 (pred_logits out) ->
  forward self out Sample.targets_none = Ok [([], [])].
Proof.
  intros Hws Hbs.
  destruct (forward_well_shaped out Sample.targets_none Hws Hbs eq_refl)
    as (C & blocks & _ & _ & -> & _ & Hlen & Hshape).
  destruct blocks as [|b [|b' blocks]]; try discriminate.
  destruct (Hshape 0 _ b eq_refl eq_refl) as (_ & Hcols & _).
  cbn. unfold Lsap.linear_sum_assignment.
  rewrite LsapFacts.solve_empty; [done|]. right. exact Hcols.
Qed.

Lemma forward_cost_matrix (out : outputs) (targets : list target)
    (res : list (list Z * list Z)) :
  forward self out targets = Ok res ->
  exists C, cost_matrix self out targets = Ok C.
Proof.
  unfold forward, split_cost. intros H. inv_bind H as ics Hics.
  inv_bind Hics as C HC. eauto.
Qed.

Lemma cat_Ok_cols (ts : list tensor2) (t : tensor2) :
  cat ts = Ok t -> Forall (fun t' => cols t' = cols t) ts.
Proof.
  unfold cat. destruct ts as [|t0 ts]; [discriminate|].
  destruct (forallb _ ts) eqn:E; [|discriminate]. intros [= <-]. cbn.
  constructor; [done|]. apply Forall_forall. intros t' Hin.
  rewrite forallb_forall in E. apply list_elem_of_In in Hin.
  specialize (E t' Hin). by apply Nat.eqb_eq in E.
Qed.

(** The shape mismatches that make the call abort. *)
Lemma rejected_aborts (out : outputs) (targets : list target) :
  rejected out targets -> is_ok (forward self out targets) = false.
Proof.
  intros [-> | Hmore | Hwidth | Hws Hsum].
  - done.
  - destruct (forward self out targets) as [res|] eqn:E; [|done].
    apply forward_blocks in E as (blocks & Hb & _).
    apply cost_blocks_shape in Hb as (_ & Hle & _). lia.
  - destruct (forward self out targets) as [res|] eqn:E; [|done].
    apply forward_cost_matrix in E as [C HC].
    apply cost_matrix_Ok in HC as (ids & tm & CC & L & _ & Htm & _ & HL & _).
    apply cdist1_Ok in HL as (Hw & _). cbn in Hw.
    apply cat_Ok_cols in Htm. rewrite Forall_fmap in Htm.
    apply Exists_exists in Hwidth as (t & Hin & Hne).
    rewrite Forall_forall in Htm. specialize (Htm t Hin). cbn in Htm.
    congruence.
  - destruct (cost_matrix_well_shaped self out targets Hws)
      as (C & HC & Hr & Hc).
    unfold forward, split_cost. rewrite HC. cbn.
    rewrite (view3_rows C _ _ Hr (ws_predictions _ _ Hws)). cbn.
    unfold split_last. cbn [dim2].
    destruct (Nat.eqb_spec (sum_list (sizes_of targets)) (cols C)) as [E|];
      [|done].
    unfold sizes_of in E. congruence.
Qed.

End ForwardFacts.

(** ** No call leaves the modelled code *)

Section Soundness.

Context {TM : TorchMath} {MO : MomentOps}.
Variable self : HungarianMatcher.
Import Tensor.

Lemma zip_sound (f : float -> float -> float) (a b : tensor2) :
  sound (zip f a b).
Proof.
  unfold zip, broadcast.
  repeat (apply bind_sound; [repeat case_match; done | intros ? _]). done.
Qed.

Lemma index_cols_sound (t : tensor2) (ids : list Z) :
  sound (index_cols t ids).
Proof.
  unfold index_cols. apply bind_sound; [|done].
  apply comprehension_sound. intros c. unfold wrap_index.
  repeat case_match; done.
Qed.

Lemma cost_matrix_sound (out : outputs) (targets : list target) :
  sound (cost_matrix self out targets).
Proof.
  unfold cost_matrix.
  apply bind_sound; [unfold cat1; by case_match | intros tgt_ids _].
  apply bind_sound; [unfold cat; repeat case_match; done | intros tm _].
  apply bind_sound.
  { unfold classification_cost.
    repeat (apply bind_sound; [apply index_cols_sound | intros ? _]).
    apply zip_sound. }
  intros CC _. apply bind_sound; [unfold cdist1; by case_match | intros L _].
  unfold combine. apply bind_sound; [apply zip_sound | intros ? _].
  apply zip_sound.
Qed.

Lemma linear_sum_assignment_sound (c : tensor2) :
  sound (Lsap.linear_sum_assignment c).
Proof.
  unfold Lsap.linear_sum_assignment, sound.
  by destruct (LsapFacts.solve_total (rows c) (cols c) (at2 c))
    as [[ab ->]| ->].
Qed.

(** [forward] returns or raises one of the exceptions of the source. *)
Lemma forward_sound (out : outputs) (targets : list target) :
  sound (forward self out targets).
Proof.
  unfold forward. apply bind_sound.
  - unfold split_cost.
    apply bind_sound; [apply cost_matrix_sound | intros C _].
    apply bind_sound; [unfold view3; repeat case_match; done | intros C3 _].
    apply bind_sound; [unfold split_last; by case_match | done].
  - intros ics _. apply comprehension_sound. intros ic. unfold assign.
    apply bind_sound; [unfold select0; by case_match | intros c _].
    apply linear_sum_assignment_sound.
Qed.

End Soundness.

(** ** Non-finite numbers *)

Lemma is_finite_spec (x : float) : is_finite x = sf_finite (Prim2SF x).
Proof.
  unfold is_finite, PrimFloat.is_nan, PrimFloat.is_infinity.
  rewrite !FloatAxioms.eqb_spec, FloatAxioms.abs_spec.
  assert (Prim2SF infinity = S754_infinity false) as -> by reflexivity.
  destruct (Prim2SF x) as [s|s| |s m e]; try done; try (by destruct s).
  unfold SFeqb. cbn.
  rewrite Z.compare_refl, Pos.compare_cont_refl. by destruct s.
Qed.




(** * The matcher's specification *)

Section Specification.

Context {TM : TorchMath} {MO : MomentOps}.
Variable self : HungarianMatcher.
Import Tensor TensorFacts.



(** C3: every entry of the KL cost that is NaN or Inf is replaced by 1000,
    every other entry is left as it is, and every entry of the result is
    finite.  The replacement is a total function of the matrix that
    [kl_divergence_batched] returns: nothing is raised. *)
Theorem kl_cost_sanitized (out_moments tgt_moments : tensor2) (i j : nat) :
  let x := at2 (kl_raw out_moments tgt_moments) i j in
  let y := at2 (kl_cost out_moments tgt_moments) i j in
  (PrimFloat.is_nan x || PrimFloat.is_infinity x = true -> y = 1000%float)
  /\ (PrimFloat.is_nan x || PrimFloat.is_infinity x = false -> y = x)
  /\ is_finite y = true.
Proof.
  cbn zeta. unfold kl_cost. cbn [at2 map]. unfold sanitize at 1 2.
  split; [|split].
  - by intros ->.
  - by intros ->.
  - apply sanitize_finite.
Qed.

(** C4: for every example of a call that returns, the two index sequences
    have the same length, which is [min(num_queries, n_i)] (so at most
    that), [n_i] being the number of boxes of the example's target; an
    example without targets gets two empty sequences, the solver returning
    them for every block without columns. *)
Theorem matched_lengths (out : outputs) (targets : list target)
    (res : list (list Z * list Z)) :
  forward self out targets = Ok res ->
  length res = length targets
  /\ forall k t a b, targets !! k = Some t -> res !! k = Some (a, b) ->
       length a = length b
       /\ length a <= Nat.min (dim1 (pred_logits out)) (len (boxes t))
       /\ length a = Nat.min (dim1 (pred_logits out)) (len (boxes t))
       /\ (len (boxes t) = 0 -> a = [] /\ b = []
           /\ forall c, cols c = 0 ->
              Lsap.linear_sum_assignment c = Ok ([], [])).
Proof.
  intros H. apply forward_example in H as [Hlen H]. split; [done|].
  intros k t a b Ht Hr. destruct (H k t a b Ht Hr) as [Ha Hb _ _ _ _ _].
  split; [lia|]. split; [lia|]. split; [done|]. intros Hz.
  rewrite Hz, Nat.min_0_r in Ha, Hb.
  destruct a, b; try done. repeat split.
  intros c Hc. apply LsapFacts.solve_empty. by right.
Qed.

(** C5: for every example of a call that returns, the prediction indices are
    pairwise distinct and lie in [[0, num_queries)], and the target indices
    are pairwise distinct and lie in [[0, n_i)]. *)
Theorem matched_indices_distinct (out : outputs) (targets : list target)
    (res : list (list Z * list Z)) :
  forward self out targets = Ok res ->
  forall k t a b, targets !! k = Some t -> res !! k = Some (a, b) ->
    NoDup a
    /\ Forall (fun x => (0 <= x < Z.of_nat (dim1 (pred_logits out)))%Z) a
    /\ NoDup b
    /\ Forall (fun y => (0 <= y < Z.of_nat (len (boxes t)))%Z) b.
Proof.
  intros H k t a b Ht Hr. apply forward_example in H as [_ H].
  by destruct (H k t a b Ht Hr).
Qed.

(** C6, amended: for every example of a call that returns, the sequence of
    matched prediction indices is strictly increasing.  (The target indices
    follow the predictions they are matched to, in no particular order.) *)
Theorem prediction_indices_increasing (out : outputs) (targets : list target)
    (res : list (list Z * list Z)) :
  forward self out targets = Ok res ->
  forall k a b, res !! k = Some (a, b) -> strictly_increasing a.
Proof.
  intros H k a b Hr. apply forward_example in H as [Hlen H].
  destruct (lookup_lt_is_Some_2 targets k) as [t Ht].
  { rewrite <- Hlen. by eapply lookup_lt_Some. }
  by destruct (H k t a b Ht Hr).
Qed.


(** C8: the constructor fails exactly when the three cost weights are all
    zero, and succeeds otherwise; [forward] does not look at the condition:
    with three zero weights it matches an image without objects as with any
    other weights. *)
Theorem init_rejects_all_zero (cc cm ck : float) :
  (init cc cm ck = Raise AssertionError
   <-> (cc =? 0)%float && (cm =? 0)%float && (ck =? 0)%float = true)
  /\ (init cc cm ck = Ok (Matcher cc cm ck)
      <-> (cc =? 0)%float && (cm =? 0)%float && (ck =? 0)%float = false)
  /\ forward (Matcher 0 0 0) Sample.out_far Sample.targets_none
     = Ok [([], [])].
Proof.
  split; [|split].
  - unfold init.
    destruct (cc =? 0)%float, (cm =? 0)%float, (ck =? 0)%float; cbn;
      split; congruence.
  - unfold init.
    destruct (cc =? 0)%float, (cm =? 0)%float, (ck =? 0)%float; cbn;
      split; congruence.
  - apply forward_no_objects; [|cbn; lia].
    split; cbn; try done; try lia; repeat constructor.
Qed.

(** C9, amended: the call aborts when the target list is empty or longer
    than the batch, when a target's moment rows have another width than the
    predicted ones, and, on an input that is well shaped otherwise, when the
    ["boxes"] lengths do not add up to the concatenated target axis.  (A
    target list shorter than the batch is not among these: see
    [short_target_list_accepted].) *)
Theorem mismatch_aborts (out : outputs) (targets : list target) :
  rejected out targets -> is_ok (forward self out targets) = false.
Proof. apply rejected_aborts. Qed.

(** C10: the block sizes are the lengths of the targets' ["boxes"], while
    the columns of the cost matrix come from the concatenated ["labels"]
    and ["moments"].  On an input that is well shaped otherwise, with no
    more targets than batch elements, the split succeeds as soon as the
    ["boxes"] lengths add up to the number of target moment rows: every
    block goes to the solver, so that the call returns unless the solver
    itself refuses the numbers of a block ([ValueError]); block [k] holds the
    columns that start at the sum of the ["boxes"] lengths before it,
    whatever rows the moments of the targets before it have. *)
Theorem boxes_checked_only_by_sum (out : outputs) (targets : list target) :
  well_shaped out targets ->
  length targets <= dim0 (pred_logits out) ->
  sum_list (sizes_of targets) = num_targets targets ->
  exists C blocks,
    cost_matrix self out targets = Ok C
    /\ cost_blocks self out targets = Ok blocks
    /\ forward self out targets
       = comprehension Lsap.linear_sum_assignment blocks
    /\ ((exists res, forward self out targets = Ok res)
        \/ forward self out targets = Raise ValueError)
    /\ length blocks = length targets
    /\ forall k t b, targets !! k = Some t -> blocks !! k = Some b ->
         rows b = dim1 (pred_logits out) /\ cols b = len (boxes t)
         /\ forall q j, j < len (boxes t) ->
            at2 b q j = at2 C (k * dim1 (pred_logits out) + q)
                              (sum_list (take k (sizes_of targets)) + j).
Proof. apply forward_well_shaped. Qed.

End Specification.

(** * The specification on sample inputs *)

Section Samples.

Import Sample.

Lemma well_shaped_out1 : well_shaped out1 targets1.
Proof. split; cbn; try done; try lia; repeat constructor; lia. Qed.


Lemma well_shaped_pair : well_shaped out_pair targets_none.
Proof. split; cbn; try done; try lia; repeat constructor. Qed.

Lemma well_shaped_shifted : well_shaped out2 targets_shifted.
Proof. split; cbn; try done; try lia; repeat constructor; lia. Qed.

(** C6 as stated fails: two queries that sit on each other's object are
    matched crosswise, so the target indices come out as [1, 0].  With the
    weights [(0, 1, 0)] the cost is the L1 distance alone, [[d, 0], [0, d]]
    with [d > 0]; the solver's answer on such a matrix is given first. *)
Lemma target_indices_not_increasing :
  Lsap.linear_sum_assignment (mat [[1; 0]; [0; 1]]%float)
  = Ok ([0; 1]%Z, [1; 0]%Z)
  /\ forward (TM := math) (MO := moment_ops) (Matcher 0 1 0)
       out_crossed targets_crossed
     = Ok [([0; 1]%Z, [1; 0]%Z)]
  /\ ~ strictly_increasing [1; 0]%Z.
Proof.
  split; [by vm_compute|]. split; [by vm_compute|].
  intros H. specialize (H 0 1 1%Z 0%Z). cbn in H.
  assert (1 < 0)%Z by (apply H; [lia|done|done]). lia.
Qed.


(** C9 as stated fails: with a batch of two images and a target list of one
    entry, the call returns the matching of the first image and leaves the
    second image out. *)
Lemma short_target_list_accepted :
  dim0 (pred_logits out_pair) = 2 /\ length targets_none = 1
  /\ forall (TM : TorchMath) (MO : MomentOps) (self : HungarianMatcher),
     forward self out_pair targets_none = Ok [([], [])].
Proof.
  split; [done|]. split; [done|]. intros TM MO self.
  apply forward_no_objects; [apply well_shaped_pair | cbn; lia].
Qed.



(** The lengths of the matching of the first sample. *)
Lemma matched_lengths_witness :
  length [([0; 1]%Z, [1; 0]%Z)] = length targets1
  /\ forall k t a b,
     targets1 !! k = Some t -> [([0; 1]%Z, [1; 0]%Z)] !! k = Some (a, b) ->
     length a = length b
     /\ length a <= Nat.min (dim1 (pred_logits out1)) (len (boxes t))
     /\ length a = Nat.min (dim1 (pred_logits out1)) (len (boxes t))
     /\ (len (boxes t) = 0 -> a = [] /\ b = []
         /\ forall c, cols c = 0 ->
            Lsap.linear_sum_assignment c = Ok ([], [])).
Proof.
  apply (matched_lengths (TM := math) (MO := moment_ops) (Matcher 1 1 1)).
  vm_compute. reflexivity.
Defined.

(** The indices of the matching of the first sample. *)
Lemma matched_indices_distinct_witness :
  NoDup [0; 1]%Z
  /\ Forall (fun x => (0 <= x < 3)%Z) [0; 1]%Z
  /\ NoDup [1; 0]%Z
  /\ Forall (fun y => (0 <= y < 2)%Z) [1; 0]%Z.
Proof.
  refine (matched_indices_distinct (TM := math) (MO := moment_ops)
            (Matcher 1 1 1) out1 targets1 [([0; 1]%Z, [1; 0]%Z)] _
            0 (Target [0; 1]%Z _ _) [0; 1]%Z [1; 0]%Z eq_refl eq_refl).
  vm_compute. reflexivity.
Defined.

(** The prediction indices of the crossed sample. *)
Lemma prediction_indices_increasing_witness :
  strictly_increasing [0; 1]%Z.
Proof.
  refine (prediction_indices_increasing (TM := math) (MO := moment_ops)
            (Matcher 0 1 0) out_crossed targets_crossed
            [([0; 1]%Z, [1; 0]%Z)] _ 0 [0; 1]%Z [1; 0]%Z eq_refl).
  vm_compute. reflexivity.
Defined.


(** Two targets for a batch of one image. *)
Lemma mismatch_aborts_witness :
  is_ok (forward (TM := math) (MO := moment_ops) (Matcher 1 1 1)
           out_far (targets_far ++ targets_far)) = false.
Proof.
  apply (mismatch_aborts (TM := math) (MO := moment_ops) (Matcher 1 1 1)).
  apply more_targets. cbn. lia.
Defined.

(** The shifted sample: the first target has one object and two boxes, the
    second two objects and one box; the call returns, the first block
    holding the columns of the first two objects. *)
Lemma boxes_checked_only_by_sum_witness :
  (rows <$> (moments <$> targets_shifted) = [1; 2]
   /\ sizes_of targets_shifted = [2; 1])
  /\ forward (TM := math) (MO := moment_ops) (Matcher 1 1 1)
       out2 targets_shifted
     = Ok [([0; 1]%Z, [0; 1]%Z); ([1]%Z, [0]%Z)]
  /\ exists C blocks,
     cost_matrix (TM := math) (MO := moment_ops) (Matcher 1 1 1)
       out2 targets_shifted = Ok C
     /\ cost_blocks (TM := math) (MO := moment_ops) (Matcher 1 1 1)
          out2 targets_shifted = Ok blocks
     /\ length blocks = 2
     /\ forall b, blocks !! 0 = Some b ->
        cols b = 2 /\ at2 b 0 1 = at2 C 0 1.
Proof.
  split; [done|]. split; [by vm_compute|].
  destruct (boxes_checked_only_by_sum (TM := math) (MO := moment_ops)
              (Matcher 1 1 1) out2 targets_shifted well_shaped_shifted)
    as (C & blocks & HC & Hb & _ & _ & Hlen & Hshape).
  - cbn. lia.
  - reflexivity.
  - exists C, blocks. split; [exact HC|]. split; [exact Hb|].
    split; [exact Hlen|]. intros b Hb0.
    destruct (Hshape 0 _ b eq_refl Hb0) as (_ & Hcols & He).
    split; [exact Hcols|]. apply (He 0 1). cbn. lia.
Defined.

End Samples.

(** * Further properties of the matcher *)

(** ** Sequences of indices *)

Lemma increasing_lower (l : list Z) :
  strictly_increasing l -> Forall (fun x => (0 <= x)%Z) l ->
  forall i x, l !! i = Some x -> (Z.of_nat i <= x)%Z.
Proof.
  intros Hinc Hl. induction i as [|i IH]; intros x Hx.
  - eapply Forall_lookup_1 in Hl; [|done]. cbn in Hl. lia.
  - destruct (lookup_lt_is_Some_2 l i) as [y Hy].
    { apply lookup_lt_Some in Hx. lia. }
    specialize (IH y Hy). specialize (Hinc i (S i) y x ltac:(lia) Hy Hx). lia.
Qed.

Lemma increasing_upper (n : nat) (l : list Z) :
  strictly_increasing l -> Forall (fun x => (x < Z.of_nat n)%Z) l ->
  forall d i x, i + d = length l - 1 -> l !! i = Some x ->
  (x + Z.of_nat d < Z.of_nat n)%Z.
Proof.
  intros Hinc Hl. induction d as [|d IH]; intros i x Hd Hx.
  - eapply Forall_lookup_1 in Hl; [|done]. cbn in Hl. lia.
  - destruct (lookup_lt_is_Some_2 l (S i)) as [y Hy]; [lia|].
    specialize (IH (S i) y ltac:(lia) Hy).
    specialize (Hinc i (S i) x y ltac:(lia) Hx Hy). lia.
Qed.

(** An increasing sequence of [n] indices below [n] is [0, ..., n - 1]. *)
Lemma increasing_full (n : nat) (l : list Z) :
  strictly_increasing l ->
  Forall (fun x => (0 <= x < Z.of_nat n)%Z) l -> length l = n ->
  l = Z.of_nat <$> seq 0 n.
Proof.
  intros Hinc Hl Hlen. apply list_eq. intros i.
  destruct (l !! i) as [x|] eqn:Hx.
  - pose proof (lookup_lt_Some _ _ _ Hx) as Hi.
    assert (Z.of_nat i <= x)%Z as Hlo.
    { apply (increasing_lower l); [done| |done].
      eapply Forall_impl; [exact Hl|]. cbn. lia. }
    assert (x + Z.of_nat (length l - 1 - i) < Z.of_nat n)%Z as Hhi.
    { apply (increasing_upper n l Hinc) with (i := i); [|lia|done].
      eapply Forall_impl; [exact Hl|]. cbn. lia. }
    rewrite list_lookup_fmap, lookup_seq_lt by lia. cbn. f_equal. lia.
  - apply lookup_ge_None in Hx.
    rewrite list_lookup_fmap, lookup_seq_ge by lia. done.
Qed.

(** [n] distinct indices below [n] are [0, ..., n - 1] in some order. *)
Lemma distinct_full (n : nat) (l : list Z) :
  NoDup l -> Forall (fun x => (0 <= x < Z.of_nat n)%Z) l -> length l = n ->
  l ≡ₚ Z.of_nat <$> seq 0 n.
Proof.
  intros Hnd Hl Hlen. apply submseteq_length_Permutation.
  - apply NoDup_submseteq; [done|]. intros x Hx.
    rewrite Forall_forall in Hl. specialize (Hl x Hx). cbn in Hl.
    apply list_elem_of_fmap. exists (Z.to_nat x). split; [lia|].
    apply elem_of_seq. lia.
  - rewrite length_fmap, length_seq. lia.
Qed.

Section Further.

Context {TM : TorchMath} {MO : MomentOps}.
Variable self : HungarianMatcher.
Import Tensor TensorFacts.

(** X1: [build_matcher] fails with the constructor's assertion when the
    three weights of [cfg.matcher] are all zero; otherwise the matcher it
    returns carries the three weights of the configuration, each under its
    own name, and one of them is not zero. *)
Theorem build_matcher_weights (cfg : Cfg.t) :
  (build_matcher cfg = Raise AssertionError
   /\ (Cfg.cost_class (Cfg.matcher cfg) =? 0)%float
      && (Cfg.cost_moments (Cfg.matcher cfg) =? 0)%float
      && (Cfg.cost_kl (Cfg.matcher cfg) =? 0)%float = true)
  \/ exists m,
       build_matcher cfg = Ok m
       /\ cost_class m = Cfg.cost_class (Cfg.matcher cfg)
       /\ cost_moments m = Cfg.cost_moments (Cfg.matcher cfg)
       /\ cost_kl m = Cfg.cost_kl (Cfg.matcher cfg)
       /\ (cost_class m =? 0)%float && (cost_moments m =? 0)%float
          && (cost_kl m =? 0)%float = false.
Proof.
  unfold build_matcher, init. destruct cfg as [[cc cm ck]]. cbn.
  destruct (cc =? 0)%float eqn:Ec, (cm =? 0)%float eqn:Em,
    (ck =? 0)%float eqn:Ek; cbn; try (left; split; reflexivity);
    right; eexists; repeat split; cbn; rewrite ?Ec, ?Em, ?Ek; done.
Qed.

(** X2: a call without predictions (no image, or no query) does not return:
    the size of the last axis of [C.view(bs, num_queries, -1)] cannot be
    inferred. *)
Theorem forward_needs_queries (out : outputs) (targets : list target) :
  dim0 (pred_logits out) * dim1 (pred_logits out) = 0 ->
  is_ok (forward self out targets) = false.
Proof.
  intros Hz. destruct (forward self out targets) as [res|] eqn:E; [|done].
  unfold forward, split_cost in E. inv_bind E as ics Hics.
  inv_bind Hics as C HC. inv_bind Hics as C3 HC3.
  apply view3_Ok in HC3 as (_ & _ & Hne & _). done.
Qed.

(** X3: in a call that returns, an example with no more queries than boxes
    has every query matched: its prediction indices are
    [0, ..., num_queries - 1]. *)
Theorem all_queries_matched (out : outputs) (targets : list target)
    (res : list (list Z * list Z)) (k : nat) (t : target) (a b : list Z) :
  forward self out targets = Ok res ->
  targets !! k = Some t -> res !! k = Some (a, b) ->
  dim1 (pred_logits out) <= len (boxes t) ->
  a = Z.of_nat <$> seq 0 (dim1 (pred_logits out)).
Proof.
  intros H Ht Hr Hle. apply forward_example in H as [_ H].
  destruct (H k t a b Ht Hr) as [Ha _ Hra _ _ _ Hinc].
  apply increasing_full; [done|done|lia].
Qed.

(** X4: in a call that returns, an example with no more boxes than queries
    has every target matched: its target indices are [0, ..., n_i - 1] in
    some order. *)
Theorem all_targets_matched (out : outputs) (targets : list target)
    (res : list (list Z * list Z)) (k : nat) (t : target) (a b : list Z) :
  forward self out targets = Ok res ->
  targets !! k = Some t -> res !! k = Some (a, b) ->
  len (boxes t) <= dim1 (pred_logits out) ->
  b ≡ₚ Z.of_nat <$> seq 0 (len (boxes t)).
Proof.
  intros H Ht Hr Hle. apply forward_example in H as [_ H].
  destruct (H k t a b Ht Hr) as [_ Hb _ Hrb _ Hnd _].
  apply distinct_full; [done|done|lia].
Qed.

(** X5: the coordinates of the boxes play no part in the matching: two
    target lists with the same labels and moments, and boxes of the same
    lengths, get the same answer. *)
Theorem forward_ignores_box_coordinates (out : outputs)
    (targets targets' : list target) :
  Forall2 (fun t t' => labels t = labels t' /\ moments t = moments t'
                       /\ len (boxes t) = len (boxes t')) targets targets' ->
  forward self out targets = forward self out targets'.
Proof.
  intros H.
  assert (labels <$> targets = labels <$> targets'
          /\ moments <$> targets = moments <$> targets'
          /\ sizes_of targets = sizes_of targets') as (Hl & Hm & Hs).
  { unfold sizes_of.
    induction H as [|t t' ts ts' (Hl & Hm & Hb) _ (IHl & IHm & IHs)];
      [done|]. cbn. by rewrite Hl, Hm, Hb, IHl, IHm, IHs. }
  unfold forward, split_cost, cost_matrix. by rewrite Hl, Hm, Hs.
Qed.

(** X6: on a well-shaped input the cost matrix is built, with one row per
    query of the batch and one column per target of the batch. *)
Theorem cost_matrix_shape (out : outputs) (targets : list target) :
  well_shaped out targets ->
  exists C, cost_matrix self out targets = Ok C
    /\ rows C = dim0 (pred_logits out) * dim1 (pred_logits out)
    /\ cols C = num_targets targets.
Proof. apply cost_matrix_well_shaped. Qed.

Lemma wrap_index_Ok (n : nat) (c : Z) (k : nat) :
  wrap_index n c = Ok k ->
  (- Z.of_nat n <= c < Z.of_nat n)%Z
  /\ Z.of_nat k = (if (c <? 0)%Z then c + Z.of_nat n else c)%Z.
Proof.
  unfold wrap_index.
  destruct (Z.leb_spec 0 c), (Z.ltb_spec c (Z.of_nat n)); cbn;
    try (intros [= <-]; destruct (Z.ltb_spec c 0); lia);
    destruct (Z.leb_spec (- Z.of_nat n) c), (Z.ltb_spec c 0); cbn;
    try discriminate; intros [= <-]; lia.
Qed.

Lemma elem_of_concat_labels (targets : list target) (t : target) (c : Z) :
  t ∈ targets -> c ∈ labels t -> c ∈ concat (labels <$> targets).
Proof.
  intros Ht Hc. induction Ht as [t ts|t t' ts Ht IH]; cbn.
  - apply elem_of_app. by left.
  - apply elem_of_app. right. by apply IH.
Qed.

(** X7: a label that indexes no class, [c >= num_classes] or
    [c < -num_classes], makes the call abort. *)
Theorem label_out_of_range_aborts (out : outputs) (targets : list target) :
  Exists (fun t =>
    Exists (fun c => ~ (- Z.of_nat (dim2 (pred_logits out)) <= c
                        < Z.of_nat (dim2 (pred_logits out)))%Z)
           (labels t)) targets ->
  is_ok (forward self out targets) = false.
Proof.
  intros Hex. destruct (forward self out targets) as [res|] eqn:E; [|done].
  apply forward_cost_matrix in E as [C HC].
  apply cost_matrix_Ok in HC as (ids & tm & CC & L & Hids & _ & HCC & _).
  apply Exists_exists in Hex as (t & Ht & Hex).
  apply Exists_exists in Hex as (c & Hc & Hout).
  assert (ids = concat (labels <$> targets)) as ->.
  { unfold cat1 in Hids. destruct (labels <$> targets); [done|].
    by injection Hids as <-. }
  pose proof (elem_of_concat_labels targets t c Ht Hc) as Hin.
  apply list_elem_of_lookup in Hin as [j Hj].
  unfold classification_cost, index_cols in HCC.
  inv_bind HCC as p Hp. inv_bind Hp as ks Hks.
  destruct (comprehension_wrap_index _ _ _ Hks j c Hj) as (k & Hk & _).
  apply wrap_index_Ok in Hk as [Hk _]. exfalso. apply Hout. exact Hk.
Qed.

Lemma wrap_index_nonneg (n : nat) (c : Z) (k : nat) :
  wrap_index n c = Ok k -> wrap_index n (nonneg_label n c) = Ok k.
Proof.
  intros H. pose proof (wrap_index_Ok _ _ _ H) as [Hr Hk].
  unfold nonneg_label. destruct (Z.ltb_spec c 0) as [Hneg|]; [|done].
  unfold wrap_index.
  destruct (Z.leb_spec 0 (c + Z.of_nat n)),
    (Z.ltb_spec (c + Z.of_nat n) (Z.of_nat n)); try lia.
  cbn. f_equal. lia.
Qed.

Lemma comprehension_wrap_nonneg (n : nat) (ids : list Z) (ks : list nat) :
  comprehension (wrap_index n) ids = Ok ks ->
  comprehension (wrap_index n) (nonneg_label n <$> ids) = Ok ks.
Proof.
  revert ks; induction ids as [|c ids IH]; intros ks H; cbn in *; [done|].
  inv_bind H as k Hk. inv_bind H as ks' Hks. injection H as <-.
  rewrite (wrap_index_nonneg _ _ _ Hk). cbn. by rewrite (IH _ Hks).
Qed.

Lemma classification_cost_nonneg (P : tensor2) (ids : list Z) (CC : tensor2) :
  classification_cost P ids = Ok CC ->
  classification_cost P (nonneg_label (cols P) <$> ids) = Ok CC.
Proof.
  unfold classification_cost, index_cols. cbn [cols map]. intros H.
  destruct (comprehension (wrap_index (cols P)) ids) as [ks|] eqn:Hks;
    [|discriminate].
  by rewrite (comprehension_wrap_nonneg _ _ _ Hks).
Qed.

Lemma concat_nonneg (n : nat) (targets : list target) :
  concat (labels <$> (nonneg_labels n <$> targets))
  = nonneg_label n <$> concat (labels <$> targets).
Proof.
  induction targets as [|t ts IH]; cbn; [done|].
  by rewrite fmap_app, IH.
Qed.

(** X8: a negative label counts from the last class.  A call that returns
    gives the same answer when every negative label [c] is written as
    [c + num_classes]. *)
Theorem negative_label_wraps (out : outputs) (targets : list target)
    (res : list (list Z * list Z)) :
  forward self out targets = Ok res ->
  forward self out
    (nonneg_labels (dim2 (pred_logits out)) <$> targets) = Ok res.
Proof.
  intros H. rewrite <- H. unfold forward, split_cost.
  enough (cost_matrix self out
            (nonneg_labels (dim2 (pred_logits out)) <$> targets)
          = cost_matrix self out targets
          /\ sizes_of (nonneg_labels (dim2 (pred_logits out)) <$> targets)
             = sizes_of targets) as [-> ->] by done.
  split.
  - apply forward_cost_matrix in H as [C HC]. rewrite HC.
    apply cost_matrix_Ok in HC as (ids & tm & CC & L & Hids & Htm & HCC & HL & HC).
    unfold cost_matrix.
    assert (moments <$> (nonneg_labels (dim2 (pred_logits out)) <$> targets)
            = moments <$> targets) as ->.
    { rewrite <- list_fmap_compose. done. }
    assert (ids = concat (labels <$> targets)) as ->.
    { unfold cat1 in Hids. destruct (labels <$> targets); [done|].
      by injection Hids as <-. }
    assert (cat1 (labels <$> (nonneg_labels (dim2 (pred_logits out))
                              <$> targets))
            = Ok (nonneg_label (dim2 (pred_logits out))
                    <$> concat (labels <$> targets))) as ->.
    { rewrite <- concat_nonneg. unfold cat1.
      destruct targets; [done|]. done. }
    pose proof (classification_cost_nonneg (out_prob_of out) _ CC HCC)
      as HCC'.
    change (cols (out_prob_of out)) with (dim2 (pred_logits out)) in HCC'.
    rewrite Htm. change (mbind ?k (Ok ?a)) with (k a). cbv beta.
    rewrite HCC'. change (mbind ?k (Ok ?a)) with (k a). cbv beta.
    rewrite HL. exact HC.
  - unfold sizes_of. rewrite <- list_fmap_compose. done.
Qed.

Lemma cat_at_lookup (ts : list tensor2) (k : nat) (t : tensor2) (j c : nat) :
  ts !! k = Some t -> j < rows t ->
  cat_at ts (sum_list (take k (rows <$> ts)) + j) c = at2 t j c.
Proof.
  revert k; induction ts as [|a ts IH]; intros k Hk Hj; [done|].
  destruct k as [|k].
  - injection Hk as ->.
    change (cat_at (t :: ts) (sum_list (take 0 (rows <$> t :: ts)) + j) c)
      with (if j <? rows t then at2 t j c else cat_at ts (j - rows t) c).
    by destruct (Nat.ltb_spec j (rows t)); [|lia].
  - change (ts !! k = Some t) in Hk.
    change (sum_list (take (S k) (rows <$> a :: ts)))
      with (rows a + sum_list (take k (rows <$> ts))).
    set (r := rows a + sum_list (take k (rows <$> ts)) + j).
    change (cat_at (a :: ts) r c)
      with (if r <? rows a then at2 a r c else cat_at ts (r - rows a) c).
    destruct (Nat.ltb_spec r (rows a)); [unfold r in *; lia|].
    replace (r - rows a) with (sum_list (take k (rows <$> ts)) + j)
      by (unfold r; lia).
    by apply IH.
Qed.

Lemma cat_Ok_at (ts : list tensor2) (t : tensor2) :
  cat ts = Ok t -> at2 t = cat_at ts.
Proof.
  unfold cat. destruct ts as [|t0 ts0]; [done|].
  destruct (forallb _ ts0); [|done]. by intros [= <-].
Qed.

Lemma lookup_concat_offset {A : Type} (ls : list (list A)) (k : nat)
    (l : list A) (j : nat) (x : A) :
  ls !! k = Some l -> l !! j = Some x ->
  concat ls !! (sum_list (take k (length <$> ls)) + j) = Some x.
Proof.
  revert k; induction ls as [|a ls IH]; intros k Hk Hj; [done|].
  destruct k as [|k]; cbn in *.
  - injection Hk as ->. by apply lookup_app_l_Some.
  - rewrite lookup_app_r by lia.
    replace (length a + sum_list (take k (length <$> ls)) + j - length a)
      with (sum_list (take k (length <$> ls)) + j) by lia.
    by apply IH.
Qed.

Lemma l1_from_ext (x y x' y' : tensor2) (i j i' j' : nat) (w k : nat)
    (acc : float) :
  (forall c, k <= c < k + w ->
     at2 x i c = at2 x' i' c /\ at2 y j c = at2 y' j' c) ->
  l1_from x y i j k w acc = l1_from x' y' i' j' k w acc.
Proof.
  revert k acc; induction w as [|w IH]; intros k acc H; cbn; [done|].
  destruct (H k ltac:(lia)) as [-> ->].
  apply IH. intros c Hc. apply H. lia.
Qed.

Lemma l1_ext (x y x' y' : tensor2) (i j i' j' : nat) :
  cols x = cols x' ->
  (forall c, c < cols x -> at2 x i c = at2 x' i' c) ->
  (forall c, c < cols x -> at2 y j c = at2 y' j' c) ->
  l1 x y i j = l1 x' y' i' j'.
Proof.
  intros Hc Hx Hy. unfold l1. rewrite <- Hc.
  apply l1_from_ext. intros c Hr. split; [apply Hx | apply Hy]; lia.
Qed.

Lemma sizes_of_rows (targets : list target) :
  Forall (fun t => len (boxes t) = rows (moments t)) targets ->
  sizes_of targets = rows <$> (moments <$> targets).
Proof.
  unfold sizes_of. induction 1 as [|t ts Ht _ IH]; cbn; [done|].
  by rewrite Ht, IH.
Qed.

Lemma lengths_of_labels (targets : list target) :
  Forall (fun t => length (labels t) = rows (moments t)) targets ->
  length <$> (labels <$> targets) = rows <$> (moments <$> targets).
Proof.
  induction 1 as [|t ts Ht _ IH]; cbn; [done|]. by rewrite Ht, IH.
Qed.

Lemma block_entry (out : outputs) (targets : list target)
    (blocks : list tensor2) (tgt_moments : tensor2) (k : nat) (t : target)
    (B : tensor2) (q j : nat) (c : Z) :
  well_shaped out targets ->
  length targets <= dim0 (pred_logits out) ->
  Forall (fun t => len (boxes t) = rows (moments t)) targets ->
  cost_blocks self out targets = Ok blocks ->
  cat (moments <$> targets) = Ok tgt_moments ->
  targets !! k = Some t -> blocks !! k = Some B ->
  q < dim1 (pred_logits out) -> labels t !! j = Some c ->
  exists kc, wrap_index (dim2 (pred_logits out)) c = Ok kc
    /\ let p := sigmoid (at3 (pred_logits out) k q kc) in
       let i := k * dim1 (pred_logits out) + q in
       let off := sum_list (take k (sizes_of targets)) in
       at2 B q j
       = (cost_moments self * l1 (query (pred_moments out) k q) (moments t) 0 j
          + cost_class self * (pos_cost p - neg_cost p)
          + cost_kl self
            * at2 (kl_cost (out_moments_of out) tgt_moments) i (off + j))%float.
Proof.
  intros Hws Hlen Hbox Hblocks Htm Ht HB Hq Hj.
  pose proof (sizes_of_rows _ Hbox) as Hsizes.
  pose proof (lengths_of_labels _ (ws_labels _ _ Hws)) as Hlens.
  destruct (forward_well_shaped self out targets Hws Hlen)
    as (C & blocks' & HC & Hb' & _ & _ & _ & Hshape).
  { by rewrite Hsizes. }
  rewrite Hblocks in Hb'. injection Hb' as <-.
  destruct (Hshape k t B Ht HB) as (_ & _ & He).
  pose proof (Forall_lookup_1 _ _ _ _ Hbox Ht) as Hbt. cbn in Hbt.
  pose proof (Forall_lookup_1 _ _ _ _ (ws_labels _ _ Hws) Ht) as Hlt.
  cbn in Hlt.
  pose proof (Forall_lookup_1 _ _ _ _ (ws_width _ _ Hws) Ht) as Hwt.
  cbn in Hwt.
  assert (j < rows (moments t)) as Hjr
    by (rewrite <- Hlt; by eapply lookup_lt_Some).
  assert (k < dim0 (pred_logits out)) as Hk
    by (apply lookup_lt_Some in Ht; lia).
  rewrite (He q j) by lia.
  apply cost_matrix_Ok in HC
    as (ids & tm & CC & L & Hids & Htm' & HCC & HL & HC).
  rewrite Htm in Htm'. injection Htm' as <-.
  assert (ids = concat (labels <$> targets)) as ->.
  { unfold cat1 in Hids. destruct (labels <$> targets); [done|].
    by injection Hids as <-. }
  set (nq := dim1 (pred_logits out)) in *.
  set (i := k * nq + q). set (off := sum_list (take k (sizes_of targets))).
  assert (i < dim0 (pred_logits out) * nq) as Hi by (unfold i; nia).
  assert (sizes_of targets !! k = Some (rows (moments t))) as Hsk.
  { rewrite Hsizes, !list_lookup_fmap, Ht. done. }
  assert (off + j < num_targets targets) as Hoff.
  { pose proof (sum_take_le _ _ _ Hsk) as Hle. unfold num_targets.
    rewrite <- Hsizes. unfold off. lia. }
  pose proof (cdist1_Ok _ _ _ HL) as (_ & HLr & HLc & HLe).
  pose proof (cat_Ok _ _ Htm) as Htr.
  change (sum_list (rows <$> (moments <$> targets)))
    with (num_targets targets) in Htr.
  pose proof (classification_cost_Ok _ _ _ HCC) as (HCr & HCc & HCe).
  assert (concat (labels <$> targets) !! (off + j) = Some c) as Hcj.
  { unfold off. rewrite Hsizes, <- Hlens.
    apply lookup_concat_offset with (l := labels t); [|done].
    by rewrite list_lookup_fmap, Ht. }
  assert (rows (out_prob_of out) = dim0 (pred_logits out) * nq) as HPr by done.
  assert (rows (out_moments_of out) = dim0 (pred_logits out) * nq) as HMr.
  { cbn. by rewrite (ws_batch _ _ Hws), (ws_queries _ _ Hws). }
  destruct (HCe i (off + j) c ltac:(lia) Hcj) as (kc & Hkc & HCC').
  exists kc. split; [exact Hkc|]. cbv zeta.
  assert (nq <> 0) as Hnq by lia.
  assert (i / nq = k /\ i mod nq = q) as [Hdiv Hmod].
  { unfold i. split.
    - rewrite Nat.div_add_l, Nat.div_small by lia. lia.
    - rewrite Nat.add_comm, Nat.Div0.mod_add. apply Nat.mod_small; lia. }
  assert (at2 L i (off + j)
          = l1 (query (pred_moments out) k q) (moments t) 0 j) as HLij.
  { rewrite HLe. apply l1_ext.
    - done.
    - intros c' _. cbn. rewrite (ws_queries _ _ Hws). fold nq.
      by rewrite Hdiv, Hmod.
    - intros c' _. rewrite (cat_Ok_at _ _ Htm).
      unfold off. rewrite Hsizes.
      apply cat_at_lookup; [|done]. by rewrite list_lookup_fmap, Ht. }
  assert (at2 (out_prob_of out) i kc
          = sigmoid (at3 (pred_logits out) k q kc)) as HPi.
  { cbn. fold nq. by rewrite Hdiv, Hmod. }
  rewrite (combine_Ok _ _ _ _ _ HC).
  rewrite !bget_in_range; rewrite ?kl_cost_rows, ?kl_cost_cols; try lia.
  - by rewrite HLij, HCC', HPi.
  - rewrite HCc, (labels_count _ (ws_labels _ _ Hws)). lia.
Qed.

(** X9: image [k]'s queries are matched against image [k]'s own objects.
    On an input whose shapes fit together and whose targets have one box per
    object, entry [(q, j)] of the block handed to the solver for image [k]
    is the weighted cost of query [q] of image [k] against object [j] of
    target [k]: the L1 distance of their moments, the classification cost
    of the query's probability for the object's class, and the entry of the
    KL cost for that query and that object. *)
Theorem block_costs_own_targets (out : outputs) (targets : list target)
    (blocks : list tensor2) (tgt_moments : tensor2) (k : nat) (t : target)
    (B : tensor2) (q j : nat) (c : Z) :
  well_shaped out targets ->
  length targets <= dim0 (pred_logits out) ->
  Forall (fun t => len (boxes t) = rows (moments t)) targets ->
  cost_blocks self out targets = Ok blocks ->
  cat (moments <$> targets) = Ok tgt_moments ->
  targets !! k = Some t -> blocks !! k = Some B ->
  q < dim1 (pred_logits out) -> labels t !! j = Some c ->
  exists kc, wrap_index (dim2 (pred_logits out)) c = Ok kc
    /\ let p := sigmoid (at3 (pred_logits out) k q kc) in
       let i := k * dim1 (pred_logits out) + q in
       let off := sum_list (take k (sizes_of targets)) in
       at2 B q j
       = (cost_moments self * l1 (query (pred_moments out) k q) (moments t) 0 j
          + cost_class self * (pos_cost p - neg_cost p)
          + cost_kl self
            * at2 (kl_cost (out_moments_of out) tgt_moments) i (off + j))%float.
Proof. apply block_entry. Qed.

Lemma is_nan_spec (x : float) :
  PrimFloat.is_nan x
  = match Prim2SF x with S754_nan => true | _ => false end.
Proof.
  unfold PrimFloat.is_nan. rewrite FloatAxioms.eqb_spec.
  destruct (Prim2SF x) as [s|s| |s m e]; try done; try (by destruct s).
  unfold SFeqb. cbn.
  rewrite Z.compare_refl, Pos.compare_cont_refl. by destruct s.
Qed.

Lemma sub_self (x : float) : is_finite x = true -> (x - x)%float = 0%float.
Proof.
  rewrite is_finite_spec. intros Hf. apply Prim2SF_inj.
  rewrite FloatAxioms.sub_spec. unfold SF64sub, SFsub.
  destruct (Prim2SF x) as [s|s| |s m e]; try done.
  - by destruct s.
  - by rewrite Z.sub_diag.
Qed.

Lemma l1_from_equal (x y : tensor2) (i j : nat) (w k : nat) :
  (forall c, k <= c < k + w ->
     at2 y j c = at2 x i c /\ is_finite (at2 x i c) = true) ->
  l1_from x y i j k w 0%float = 0%float.
Proof.
  revert k; induction w as [|w IH]; intros k H; cbn [l1_from]; [done|].
  destruct (H k ltac:(lia)) as [-> Hf]. rewrite (sub_self _ Hf).
  change (0 + PrimFloat.abs 0)%float with 0%float.
  apply IH. intros c Hc. apply H. lia.
Qed.

(** X10: a query whose predicted moments are those of an object, all of
    them finite, is at L1 distance 0 from it. *)
Theorem equal_moments_cost_nothing (x y L : tensor2) (i j : nat) :
  cdist1 x y = Ok L ->
  (forall c, c < cols x ->
     at2 y j c = at2 x i c /\ is_finite (at2 x i c) = true) ->
  at2 L i j = 0%float.
Proof.
  intros HL H. apply cdist1_Ok in HL as (_ & _ & _ & ->).
  apply l1_from_equal. intros c Hc. apply H. lia.
Qed.

Lemma is_nan_add_l (a b : float) :
  PrimFloat.is_nan a = true -> PrimFloat.is_nan (a + b)%float = true.
Proof.
  rewrite !is_nan_spec, FloatAxioms.add_spec. unfold SF64add.
  by destruct (Prim2SF a) as [s|s| |s m e].
Qed.

Lemma is_nan_add_r (a b : float) :
  PrimFloat.is_nan b = true -> PrimFloat.is_nan (a + b)%float = true.
Proof.
  rewrite !is_nan_spec, FloatAxioms.add_spec. unfold SF64add.
  destruct (Prim2SF b) as [s|s| |s m e]; try done.
  by destruct (Prim2SF a) as [s|s| |s m e].
Qed.

Lemma is_nan_mul_r (a b : float) :
  PrimFloat.is_nan b = true -> PrimFloat.is_nan (a * b)%float = true.
Proof.
  rewrite !is_nan_spec, FloatAxioms.mul_spec. unfold SF64mul.
  destruct (Prim2SF b) as [s|s| |s m e]; try done.
  by destruct (Prim2SF a) as [s|s| |s m e].
Qed.

Lemma is_nan_abs_sub_l (a b : float) :
  PrimFloat.is_nan a = true ->
  PrimFloat.is_nan (PrimFloat.abs (a - b)) = true.
Proof.
  rewrite !is_nan_spec, FloatAxioms.abs_spec, FloatAxioms.sub_spec.
  unfold SF64sub. by destruct (Prim2SF a) as [s|s| |s m e].
Qed.

Lemma l1_from_nan_acc (x y : tensor2) (i j : nat) (w k : nat) (acc : float) :
  PrimFloat.is_nan acc = true ->
  PrimFloat.is_nan (l1_from x y i j k w acc) = true.
Proof.
  revert k acc; induction w as [|w IH]; intros k acc H; cbn [l1_from];
    [done|].
  by apply IH, is_nan_add_l.
Qed.

Lemma l1_from_nan (x y : tensor2) (i j : nat) (w k c : nat) (acc : float) :
  k <= c < k + w -> PrimFloat.is_nan (at2 x i c) = true ->
  PrimFloat.is_nan (l1_from x y i j k w acc) = true.
Proof.
  revert k acc; induction w as [|w IH]; intros k acc Hc H; cbn [l1_from];
    [lia|].
  destruct (Nat.eq_dec c k) as [->|Hne].
  - by apply l1_from_nan_acc, is_nan_add_r, is_nan_abs_sub_l.
  - apply IH; [lia|done].
Qed.

(** X11: a NaN among the predicted moments is never matched over.  On an
    input whose shapes fit together, a NaN in the moments of a query of an
    image that has an object makes the solver refuse the image's block,
    whatever the weights are (a weight 0 included): the call raises
    [ValueError]. *)
Theorem nan_moment_aborts (out : outputs) (targets : list target)
    (k : nat) (t : target) (q c : nat) :
  well_shaped out targets ->
  length targets <= dim0 (pred_logits out) ->
  Forall (fun t => len (boxes t) = rows (moments t)) targets ->
  targets !! k = Some t -> 0 < len (boxes t) ->
  q < dim1 (pred_logits out) -> c < dim2 (pred_moments out) ->
  PrimFloat.is_nan (at3 (pred_moments out) k q c) = true ->
  forward self out targets = Raise ValueError.
Proof.
  intros Hws Hlen Hbox Ht Hpos Hq Hc Hnan.
  destruct (forward_well_shaped self out targets Hws Hlen)
    as (C & blocks & HC & Hb & _ & [[res Hres]|Hraise] & Hlb & Hshape);
    [by rewrite (sizes_of_rows _ Hbox)| |done].
  exfalso.
  destruct (forward_blocks self out targets res Hres) as (blocks' & Hb' & HF).
  rewrite Hb in Hb'. injection Hb' as <-.
  destruct (lookup_lt_is_Some_2 blocks k) as [B HB].
  { rewrite Hlb. by eapply lookup_lt_Some. }
  destruct (Forall2_lookup_l _ _ _ _ _ HF HB) as (r & _ & Hsolve).
  destruct (Hshape k t B Ht HB) as (Hr & Hcl & _).
  pose proof (LsapFacts.solve_valid _ _ _ _ Hsolve q 0 ltac:(lia) ltac:(lia))
    as Hv.
  apply orb_false_elim in Hv as [Hv _].
  pose proof (Forall_lookup_1 _ _ _ _ (ws_labels _ _ Hws) Ht) as Hlt.
  cbn in Hlt.
  pose proof (Forall_lookup_1 _ _ _ _ Hbox Ht) as Hbt. cbn in Hbt.
  destruct (lookup_lt_is_Some_2 (labels t) 0) as [c0 Hc0]; [lia|].
  destruct (cat_same_width (dim2 (pred_moments out)) (moments <$> targets))
    as (tm & Htm & _).
  { intros E. apply fmap_nil_inv in E. by apply (ws_targets _ _ Hws). }
  { apply Forall_fmap. exact (ws_width _ _ Hws). }
  destruct (block_entry out targets blocks tm k t B q 0 c0
              Hws Hlen Hbox Hb Htm Ht HB Hq Hc0) as (kc & _ & He).
  cbv zeta in He.
  assert (PrimFloat.is_nan (at2 B q 0) = true) as HN.
  { rewrite He. apply is_nan_add_l, is_nan_add_l, is_nan_mul_r.
    unfold l1. by apply l1_from_nan with (c := c); [cbn; lia|]. }
  unfold PrimFloat.is_nan in HN. by rewrite HN in Hv.
Qed.

End Further.

(** ** Samples for the further properties *)

Section FurtherSamples.

Import Sample.

Lemma well_shaped_out2 : well_shaped out2 targets2.
Proof. split; cbn; try done; try lia; repeat constructor; lia. Qed.

Lemma well_shaped_nan : well_shaped out1_nan targets1.
Proof. split; cbn; try done; try lia; repeat constructor; lia. Qed.

(** An image without queries. *)
Lemma forward_needs_queries_witness :
  is_ok (forward (TM := math) (MO := moment_ops) (Matcher 1 1 1)
           out_no_queries targets1) = false.
Proof.
  apply (forward_needs_queries (TM := math) (MO := moment_ops)).
  reflexivity.
Defined.

(** Two queries and two objects. *)
Lemma all_queries_matched_witness :
  [0; 1]%Z = Z.of_nat <$> seq 0 (dim1 (pred_logits out_crossed)).
Proof.
  refine (all_queries_matched (TM := math) (MO := moment_ops)
            (Matcher 0 1 0) out_crossed targets_crossed
            [([0; 1]%Z, [1; 0]%Z)] 0 (Target [0; 0]%Z _ _)
            [0; 1]%Z [1; 0]%Z _ eq_refl eq_refl _).
  - vm_compute. reflexivity.
  - cbn. lia.
Defined.

(** Three queries and two objects. *)
Lemma all_targets_matched_witness :
  [1; 0]%Z ≡ₚ Z.of_nat <$> seq 0 2.
Proof.
  refine (all_targets_matched (TM := math) (MO := moment_ops)
            (Matcher 1 1 1) out1 targets1
            [([0; 1]%Z, [1; 0]%Z)] 0 (Target [0; 1]%Z _ _)
            [0; 1]%Z [1; 0]%Z _ eq_refl eq_refl _).
  - vm_compute. reflexivity.
  - cbn. lia.
Defined.

(** The first sample, and the same with its boxes moved. *)
Lemma forward_ignores_box_coordinates_witness :
  forward (TM := math) (MO := moment_ops) (Matcher 1 1 1) out1 targets1
  = forward (TM := math) (MO := moment_ops) (Matcher 1 1 1) out1
      targets1_moved.
Proof.
  apply (forward_ignores_box_coordinates (TM := math) (MO := moment_ops)).
  repeat constructor.
Defined.

(** The cost matrix of the first sample: three queries, two objects. *)
Lemma cost_matrix_shape_witness :
  exists C,
    cost_matrix (TM := math) (MO := moment_ops) (Matcher 1 1 1) out1 targets1
    = Ok C
    /\ rows C = dim0 (pred_logits out1) * dim1 (pred_logits out1)
    /\ cols C = num_targets targets1.
Proof.
  apply (cost_matrix_shape (TM := math) (MO := moment_ops)).
  exact well_shaped_out1.
Defined.

(** The label 2 among two classes. *)
Lemma label_out_of_range_aborts_witness :
  is_ok (forward (TM := math) (MO := moment_ops) (Matcher 1 1 1)
           out1 targets1_past) = false.
Proof.
  apply (label_out_of_range_aborts (TM := math) (MO := moment_ops)).
  apply Exists_cons_hd, Exists_cons_tl, Exists_cons_hd. cbn. lia.
Defined.

(** The label -1 among two classes is the label 1. *)
Lemma negative_label_wraps_witness :
  forward (TM := math) (MO := moment_ops) (Matcher 1 1 1) out1
    (nonneg_labels (dim2 (pred_logits out1)) <$> targets1_negative)
  = Ok [([0; 1]%Z, [1; 0]%Z)].
Proof.
  apply (negative_label_wraps (TM := math) (MO := moment_ops)).
  vm_compute. reflexivity.
Defined.

(** The first query of the second image against the second object of the
    second target, of class 0. *)
Lemma block_costs_own_targets_witness :
  exists kc, Tensor.wrap_index (dim2 (pred_logits out2)) 0 = Ok kc
    /\ let p := sigmoid (TorchMath := math) (at3 (pred_logits out2) 1 0 kc) in
       let i := 1 * dim1 (pred_logits out2) + 0 in
       let off := sum_list (take 1 (sizes_of targets2)) in
       at2 (default (empty 0)
              (value []
                 (cost_blocks (TM := math) (MO := moment_ops)
                    (Matcher 1 1 1) out2 targets2) !! 1)) 0 1
       = (1 * Tensor.l1 (query (pred_moments out2) 1 0)
                (mat [[0.3; 0.3; 0.1; 0.1; 0]; [0.7; 0.7; 0.1; 0.1; 0]]) 0 1
          + 1 * (pos_cost (TM := math) p - neg_cost (TM := math) p)
          + 1 * at2 (kl_cost (MO := moment_ops) (out_moments_of out2)
                       (value (empty 0)
                          (Tensor.cat (moments <$> targets2))))
                  i (off + 1))%float.
Proof.
  refine (block_costs_own_targets (TM := math) (MO := moment_ops)
            (Matcher 1 1 1) out2 targets2 _ _ 1
            (Target [1; 0]%Z
               (mat [[0.3; 0.3; 0.1; 0.1; 0]; [0.7; 0.7; 0.1; 0.1; 0]]%float)
               (mat [[0; 0; 1; 1]; [0; 0; 1; 1]]%float))
            _ 0 1 0%Z well_shaped_out2 _ _ eq_refl eq_refl eq_refl eq_refl
            _ eq_refl).
  - cbn. lia.
  - repeat constructor.
  - cbn. lia.
Defined.

(** The second query of the first sample has the moments of the first
    object. *)
Lemma equal_moments_cost_nothing_witness :
  at2 (value (empty 0)
         (Tensor.cdist1 (out_moments_of out1)
            (value (empty 0) (Tensor.cat (moments <$> targets1))))) 1 0
  = 0%float.
Proof.
  apply (equal_moments_cost_nothing (out_moments_of out1)
           (value (empty 0) (Tensor.cat (moments <$> targets1)))).
  - reflexivity.
  - intros c Hc. cbn in Hc.
    do 5 (destruct c as [|c]; [split; vm_compute; reflexivity|]). lia.
Defined.

(** The first sample with a NaN moment in its last query. *)
Lemma nan_moment_aborts_witness :
  forward (TM := math) (MO := moment_ops) (Matcher 1 1 1) out1_nan targets1
  = Raise ValueError.
Proof.
  refine (nan_moment_aborts (TM := math) (MO := moment_ops) (Matcher 1 1 1)
            out1_nan targets1 0 (Target [0; 1]%Z _ _) 2 1
            well_shaped_nan _ _ eq_refl _ _ _ eq_refl).
  - cbn. lia.
  - repeat constructor.
  - cbn. lia.
  - cbn. lia.
  - cbn. lia.
Defined.

End FurtherSamples.
